(** * polka-sync: the block-range synchronisation loop of sync.js

    A shallow embedding of [SyncByUpdate], [blockHeights], [log], [loadConf]
    and [saveConf], and the properties of the checkpointed range sync that
    the specification states about them.

    Modelling conventions.
    - Block heights, [offset] and [sleepInterval] are integers ([Z]).
      [log] and [cycle] compute on them exactly, with [iterationCount] an
      exact rational; [log64] and [cycle64] round every sum, difference and
      quotient as JavaScript numbers do, and are shown to coincide with
      [log] and [cycle] while the heights stay within 2^53.
    - [conf\['syncedBlockHeight'\]] is kept as a raw JSON value, because
      [blockHeights] validates it with [isNaN].
    - Every call that leaves the program (the chain client, the logger, the
      file system, timers) is recorded as an [action]; the answers of the
      outside world are given by an [Env], indexed by the number of calls
      made so far.
    - [console.log] output is not modelled. *)

From Stdlib Require Import ZArith QArith List String Bool Lia.
Import ListNotations.

#[local] Open Scope string_scope.
#[local] Open Scope Z_scope.
#[local] Open Scope list_scope.

(* ================================================================== *)
(** ** A fragment of JavaScript values and numbers *)
(* ================================================================== *)

Module JS.

(** A JavaScript number: NaN, the two infinities, or a finite value. *)
Inductive number : Type :=
| NaN
| PInf
| NInf
| Fin (q : Q).

(** The values [JSON.parse] can put in a field of the conf object, plus
    [undefined] for a field that is absent.  An array or a plain object is
    represented by the string its conversion to a primitive yields
    ("[object Object]" for a plain object, the joined items for an array). *)
Inductive value : Type :=
| VUndefined
| VNull
| VBool (b : bool)
| VNumber (n : number)
| VString (s : string)
| VObject (prim : string).

Definition Qltb (x y : Q) : bool := (Qnum x * QDen y <? Qnum y * QDen x)%Z.

(** [a < b] on numbers; false as soon as one side is NaN. *)
Definition num_ltb (a b : number) : bool :=
  match a, b with
  | NaN, _ | _, NaN => false
  | PInf, _ => false
  | _, NInf => false
  | NInf, _ => true
  | _, PInf => true
  | Fin x, Fin y => Qltb x y
  end.

(** [a / b] for two integer operands. *)
Definition div (a b : Z) : number :=
  if (b =? 0)%Z then
    if (a =? 0)%Z then NaN else if (0 <? a)%Z then PInf else NInf
  else if (0 <? b)%Z then Fin (Qmake a (Z.to_pos b))
  else Fin (Qmake (- a) (Z.to_pos (- b))).

(** [Math.max(a, b)]. *)
Definition Math_max (a b : number) : number :=
  match a, b with
  | NaN, _ | _, NaN => NaN
  | PInf, _ | _, PInf => PInf
  | NInf, x | x, NInf => x
  | Fin x, Fin y => if Qltb x y then Fin y else Fin x
  end.

Definition of_Z (z : Z) : number := Fin (inject_Z z).

(** The abstract operation ToNumber.  The conversion of strings is a
    builtin of the engine and comes as a parameter. *)
Definition ToNumber (StringToNumber : string -> number) (v : value) : number :=
  match v with
  | VUndefined => NaN
  | VNull => of_Z 0
  | VBool true => of_Z 1
  | VBool false => of_Z 0
  | VNumber n => n
  | VString s => StringToNumber s
  | VObject prim => StringToNumber prim
  end.

(** The global [isNaN]: converts its argument to a number first. *)
Definition isNaN (StringToNumber : string -> number) (v : value) : bool :=
  match ToNumber StringToNumber v with
  | NaN => true
  | _ => false
  end.

(** [typeof v === 'number'] *)
Definition is_number (v : value) : bool :=
  match v with
  | VNumber _ => true
  | _ => false
  end.

(** The integer a value holds, when it is a number with an integer value. *)
Definition as_integer (v : value) : option Z :=
  match v with
  | VNumber (Fin q) =>
      let r := Qred q in
      if (Zpos (Qden r) =? 1)%Z then Some (Qnum r) else None
  | _ => None
  end.

End JS.

Import JS.

(** A block height as a JavaScript value. *)
Definition height (z : Z) : value := VNumber (of_Z z).

(* ================================================================== *)
(** ** Data model *)
(* ================================================================== *)

(** public/conf.json *)
Record Conf : Type := mkConf {
  syncedBlockHeight : value;
  sleepInterval : Z;
  offset : Z
}.

Definition set_syncedBlockHeight (v : value) (c : Conf) : Conf :=
  mkConf v (sleepInterval c) (offset c).

(** The three contract bindings created when the module is loaded. *)
Inductive contract : Type :=
| privateSale
| chainGuardian
| trustPad.

(** A raw event record, as returned by the node. *)
Definition Event : Type := Z.
Definition EventBatch : Type := list Event.

(** Calls that leave the program, with the answer each one got. *)
Inductive action : Type :=
| GetBlockNumber (result : option Z)
| ReInit
| TimeOut (seconds : Z)
| GetPastEvents (c : contract) (fromBlock toBlock : Z)
                (result : option EventBatch)
| LogSync (contractName : string) (events : EventBatch) (web3 : nat)
          (duration : value) (ok : bool)
| WriteFile (content : Conf) (ok : bool).

(** The engine and the outside world.  The first argument of each
    answering function is the number of actions performed before the call;
    [None] and [false] stand for a call that throws. *)
Record Env : Type := mkEnv {
  StringToNumber : string -> number;
  PRIVATE_SALE_DURATION : value;
  CHAIN_GUARDIAN_DURATION : value;
  TRUST_PAD_DURATION : value;
  eth_getBlockNumber : nat -> option Z;
  contract_getPastEvents : nat -> contract -> Z -> Z -> option EventBatch;
  logger_logSync : nat -> string -> EventBatch -> nat -> value -> bool;
  fs_writeFileSync : nat -> Conf -> bool
}.

(** The state of the process: the conf object every function shares and
    mutates, the document on disk ([None] when missing or malformed), the
    current chain client (counted by the number of [reInit] calls) and the
    number of actions performed so far. *)
Record State : Type := mkState {
  conf : Conf;
  disk : option Conf;
  web3 : nat;
  clock : nat
}.

(** How a computation ends: normally, with [process.exit], with an error
    nobody catches, in a case the model leaves out (see [cycle]), or because
    the fuel given to the loop of [log] is used up. *)
Inductive result (A : Type) : Type :=
| Ok (a : A)
| Exit (code : Z)
| Throw (message : string)
| Unmodelled
| OutOfFuel.

Arguments Ok {A} a.
Arguments Exit {A} code.
Arguments Throw {A} message.
Arguments Unmodelled {A}.
Arguments OutOfFuel {A}.

(** A run: how it ended, the state it left, the actions it performed. *)
Record Run (A : Type) : Type := mkRun {
  res : result A;
  final : State;
  emitted : list action
}.

Arguments mkRun {A} res final emitted.
Arguments res {A} r.
Arguments final {A} r.
Arguments emitted {A} r.

Definition M (A : Type) : Type := State -> Run A.

Definition ret {A} (a : A) : M A := fun st => mkRun (Ok a) st [].

Definition bind {A B} (m : M A) (f : A -> M B) : M B := fun st =>
  match m st with
  | mkRun (Ok a) st1 tr1 =>
      match f a st1 with
      | mkRun r st2 tr2 => mkRun r st2 (tr1 ++ tr2)
      end
  | mkRun (Exit code) st1 tr1 => mkRun (Exit code) st1 tr1
  | mkRun (Throw message) st1 tr1 => mkRun (Throw message) st1 tr1
  | mkRun Unmodelled st1 tr1 => mkRun Unmodelled st1 tr1
  | mkRun OutOfFuel st1 tr1 => mkRun OutOfFuel st1 tr1
  end.

Declare Scope sync_scope.
Delimit Scope sync_scope with sync.
Notation "x <- m ;; k" := (bind m (fun x => k))
  (at level 61, m at next level, right associativity) : sync_scope.
Notation "m ;; k" := (bind m (fun _ => k))
  (at level 61, right associativity) : sync_scope.
#[local] Open Scope sync_scope.

(** [process.exit(code)]; [process.exit()] is [process_exit 0], since
    [process.exitCode] is never set. *)
Definition process_exit {A} (code : Z) : M A := fun st => mkRun (Exit code) st [].

Definition throw {A} (message : string) : M A := fun st =>
  mkRun (Throw message) st [].

Definition unmodelled {A} : M A := fun st => mkRun Unmodelled st [].
Definition out_of_fuel {A} : M A := fun st => mkRun OutOfFuel st [].

Definition get_conf : M Conf := fun st => mkRun (Ok (conf st)) st [].
Definition get_web3 : M nat := fun st => mkRun (Ok (web3 st)) st [].

(** [conf\['syncedBlockHeight'\] = v] *)
Definition assign_syncedBlockHeight (v : value) : M unit := fun st =>
  mkRun (Ok tt)
        (mkState (set_syncedBlockHeight v (conf st)) (disk st) (web3 st) (clock st))
        [].

Definition tick (st : State) : State :=
  mkState (conf st) (disk st) (web3 st) (S (clock st)).

(* ================================================================== *)
(** ** The program *)
(* ================================================================== *)

Section Program.

Variable env : Env.

(** *** Calls to the collaborators *)

(** [web3.eth.getBlockNumber()]; [None] when the call throws. *)
Definition getBlockNumber : M (option Z) := fun st =>
  let r := eth_getBlockNumber env (clock st) in
  mkRun (Ok r) (tick st) [GetBlockNumber r].

(** [web3 = blockchain.reInit()]: the global client is replaced; the three
    contract bindings are left as they were. *)
Definition reInit : M unit := fun st =>
  mkRun (Ok tt)
        (mkState (conf st) (disk st) (S (web3 st)) (S (clock st)))
        [ReInit].

(** [timeOut(seconds)] *)
Definition timeOut (seconds : Z) : M unit := fun st =>
  mkRun (Ok tt) (tick st) [TimeOut seconds].

(** [c.getPastEvents('allEvents', {fromBlock, toBlock})] *)
Definition getPastEvents (c : contract) (fromBlock toBlock : Z)
  : M (option EventBatch) := fun st =>
  let r := contract_getPastEvents env (clock st) c fromBlock toBlock in
  mkRun (Ok r) (tick st) [GetPastEvents c fromBlock toBlock r].

(** [logSync(contractName, events, web3, duration)] *)
Definition logSync (contractName : string) (events : EventBatch) (w : nat)
                   (duration : value) : M bool := fun st =>
  let ok := logger_logSync env (clock st) contractName events w duration in
  mkRun (Ok ok) (tick st) [LogSync contractName events w duration ok].

(** [fs.writeFileSync('./public/conf.json', JSON.stringify(content))]; a
    write that throws is taken to leave the document as it was. *)
Definition writeFileSync (content : Conf) : M bool := fun st =>
  let ok := fs_writeFileSync env (clock st) content in
  mkRun (Ok ok)
        (mkState (conf st) (if ok then Some content else disk st)
                 (web3 st) (S (clock st)))
        [WriteFile content ok].

(** *** loadConf and saveConf *)

(** [loadConf()]: the document is read and parsed.  A document that parses
    to something other than a conf object (a number, an array, an object
    without the three fields) is returned as it is by the code; the disk
    holds a [Conf] or nothing here, so that case is not covered. *)
Definition loadConf : M Conf := fun st =>
  match disk st with
  | Some c => mkRun (Ok c) st []
  | None => mkRun (Throw "Can not read public/conf.json") st []
  end.

(** [saveConf(conf)]: the argument is always the shared conf object. *)
Definition saveConf : M unit :=
  c <- get_conf ;;
  ok <- writeFileSync c ;;
  if ok then ret tt else process_exit 0.

(** *** blockHeights

    The pair returned is [(latestBlockNum, syncedBlockHeight)]; a
    [latestBlockNum] of [None] is the [undefined] the source returns when
    the query throws. *)
Definition blockHeights : M (option Z * value) :=
  c <- get_conf ;;
  let synced := syncedBlockHeight c in
  if isNaN (StringToNumber env) synced
  then throw "syncedBlockHeight must be integer"
  else
    r <- getBlockNumber ;;
    match r with
    | None => ret (None, synced)
    | Some latestBlockNum => ret (Some latestBlockNum, synced)
    end.

(** *** log *)

(** One [try { events = await c.getPastEvents(...) } catch { ... }] block. *)
Definition fetchEvents (c : contract) (from to : Z) : M EventBatch :=
  r <- getPastEvents c from to ;;
  match r with
  | Some events => ret events
  | None =>
      cf <- get_conf ;;
      timeOut (sleepInterval cf) ;;
      process_exit 0
  end.

(** One [if (events.length > 0) { try { await logSync(...) } catch { ... } }]
    block. *)
Definition logEvents (contractName : string) (events : EventBatch)
                     (duration : value) : M unit :=
  if (0 <? List.length events)%nat then
    w <- get_web3 ;;
    ok <- logSync contractName events w duration ;;
    if ok then ret tt else process_exit 0
  else ret tt.

(** The part of the loop body that fetches and hands over the events of
    the sub-range [(from, to)], contract after contract. *)
Definition sync_subrange (from to : Z) : M unit :=
  privateSaleEvents <- fetchEvents privateSale from to ;;
  logEvents "private-sale" privateSaleEvents (PRIVATE_SALE_DURATION env) ;;
  timeOut 1 ;;
  chainGuardianEvents <- fetchEvents chainGuardian from to ;;
  logEvents "chain-guardian" chainGuardianEvents (CHAIN_GUARDIAN_DURATION env) ;;
  timeOut 1 ;;
  trustPadEvents <- fetchEvents trustPad from to ;;
  logEvents "trust-pad" trustPadEvents (TRUST_PAD_DURATION env).

(** [for (let i = 0; i < iterationCount; i++) { ... }]; the loop returns the
    values its variables [i], [from] and [to] have when it is left. *)
Fixpoint log_loop (fuel : nat) (latestBlockNum off : Z)
                  (iterationCount : number) (i from to : Z)
  : M (Z * Z * Z) :=
  if num_ltb (of_Z i) iterationCount then
    match fuel with
    | O => out_of_fuel
    | S fuel' =>
        sync_subrange from to ;;
        let from := from + off in
        let to := if from + off >? latestBlockNum
                  then latestBlockNum else from + off in
        assign_syncedBlockHeight (height to) ;;
        saveConf ;;
        log_loop fuel' latestBlockNum off iterationCount (i + 1) from to
    end
  else ret (i, from, to).

(** [Math.max(0, (latestBlockNum - syncedBlockHeight) / offset)] *)
Definition iteration_count (latestBlockNum synced off : Z) : number :=
  Math_max (of_Z 0) (JS.div (latestBlockNum - synced) off).

(** The value [to] has when the loop is entered. *)
Definition first_to (latestBlockNum synced off : Z) : Z :=
  if latestBlockNum - synced >? off then off + synced else latestBlockNum.

Definition log (fuel : nat) (latestBlockNum synced : Z) : M unit :=
  cf <- get_conf ;;
  let off := offset cf in
  let iterationCount := iteration_count latestBlockNum synced off in
  let from := synced in
  let to := first_to latestBlockNum synced off in
  log_loop fuel latestBlockNum off iterationCount 0 from to ;;
  ret tt.

(** *** SyncByUpdate *)

(** One turn of the [while (true)] loop.  [Ok tt] means that the loop goes
    on to its next turn.  The first branch is the one taken when
    [isNaN(parseInt(latestBlockNum))] holds.  The two comparisons are made
    on the height [blockHeights] returned, not on the conf.  A checkpoint
    that passes the [isNaN] test without being an integer number would
    reach [log] through implicit conversions; that case is left out of the
    model. *)
Definition cycle (fuel : nat) : M unit :=
  h <- blockHeights ;;
  let '(latestBlockNum, synced) := h in
  match latestBlockNum with
  | None =>
      reInit ;;
      cf <- get_conf ;;
      timeOut (sleepInterval cf)
  | Some latest =>
      (if num_ltb (of_Z latest) (ToNumber (StringToNumber env) synced)
       then assign_syncedBlockHeight (height latest) ;; saveConf
       else ret tt) ;;
      (if num_ltb (ToNumber (StringToNumber env) synced) (of_Z latest)
       then match as_integer synced with
            | Some s => log fuel latest s
            | None => unmodelled
            end
       else ret tt) ;;
      cf <- get_conf ;;
      timeOut (sleepInterval cf)
  end.

(** The first [n] turns of the loop. *)
Fixpoint cycles (fuel n : nat) : M unit :=
  match n with
  | O => ret tt
  | S n' => cycle fuel ;; cycles fuel n'
  end.

Definition set_conf (c : Conf) : M unit := fun st =>
  mkRun (Ok tt) (mkState c (disk st) (web3 st) (clock st)) [].

Definition SyncByUpdate (fuel n : nat) : M unit :=
  c <- loadConf ;;
  set_conf c ;;
  cycles fuel n.

End Program.

(* ================================================================== *)
(** ** Reading a trace *)
(* ================================================================== *)

(** The block ranges handed to [getPastEvents], in order. *)
Definition fetch_of (a : action) : list (contract * (Z * Z)) :=
  match a with
  | GetPastEvents c f t _ => [(c, (f, t))]
  | _ => []
  end.

Definition fetches (tr : list action) : list (contract * (Z * Z)) :=
  flat_map fetch_of tr.

(** The checkpoints written to disk, in order. *)
Definition write_of (a : action) : list value :=
  match a with
  | WriteFile c true => [syncedBlockHeight c]
  | _ => []
  end.

Definition checkpoints (tr : list action) : list value := flat_map write_of tr.

(** Actions that the failure policy treats as fatal. *)
Definition failed (a : action) : bool :=
  match a with
  | GetPastEvents _ _ _ None => true
  | LogSync _ _ _ _ false => true
  | WriteFile _ false => true
  | _ => false
  end.

Definition is_fetch (a : action) : bool :=
  match a with GetPastEvents _ _ _ _ => true | _ => false end.

Definition is_write (a : action) : bool :=
  match a with WriteFile _ _ => true | _ => false end.

Definition exited {A} (r : Run A) : bool :=
  match res r with Exit _ => true | _ => false end.

Definition contract_eqb (a b : contract) : bool :=
  match a, b with
  | privateSale, privateSale => true
  | chainGuardian, chainGuardian => true
  | trustPad, trustPad => true
  | _, _ => false
  end.

(** The answers [getPastEvents] gave to contract [c]. *)
Definition fetched (c : contract) (tr : list action) : list (option EventBatch) :=
  flat_map (fun a => match a with
                     | GetPastEvents c' _ _ r => if contract_eqb c c' then [r] else []
                     | _ => []
                     end) tr.

(** The arguments of the [logSync] calls made under the name [name]. *)
Definition logSync_calls (name : string) (tr : list action)
  : list (string * EventBatch * nat * value) :=
  flat_map (fun a => match a with
                     | LogSync n ev w d _ =>
                         if String.eqb n name then [(n, ev, w, d)] else []
                     | _ => []
                     end) tr.

(** The name and the duration parameter the source passes to [logSync] for
    each contract (lines 154, 182 and 210). *)
Definition contract_name (c : contract) : string :=
  match c with
  | privateSale => "private-sale"
  | chainGuardian => "chain-guardian"
  | trustPad => "trust-pad"
  end.

Definition contract_duration (env : Env) (c : contract) : value :=
  match c with
  | privateSale => PRIVATE_SALE_DURATION env
  | chainGuardian => CHAIN_GUARDIAN_DURATION env
  | trustPad => TRUST_PAD_DURATION env
  end.

(* ================================================================== *)
(** ** The sub-ranges as the specification describes them *)
(* ================================================================== *)

Definition prefix {A} (l1 l2 : list A) : Prop := exists rest, l2 = l1 ++ rest.

(** [ceil(a / b)] for [0 < b]. *)
Definition ceil_div (a b : Z) : Z := (a + b - 1) / b.

(** [to = min(from + subRangeSize, latestBlockHeight)], [n] times, each
    sub-range starting where the one before ended. *)
Fixpoint subranges (n : nat) (from size latest : Z) : list (Z * Z) :=
  match n with
  | O => []
  | S n' => (from, Z.min (from + size) latest)
            :: subranges n' (from + size) size latest
  end.

(** Every contract is queried over the sub-range, in the declared order. *)
Definition per_contract (r : Z * Z) : list (contract * (Z * Z)) :=
  [(privateSale, r); (chainGuardian, r); (trustPad, r)].

(** [chain a l b]: the ranges of [l] are not empty, each starts where the
    one before ends, the first starts at [a] and the last ends at [b]. *)
Fixpoint chain (a : Z) (l : list (Z * Z)) (b : Z) : Prop :=
  match l with
  | [] => a = b
  | (f, t) :: l' => f = a /\ f < t /\ chain t l' b
  end.

(** A world in which no fetch, no hand-over and no write ever fails. *)
Definition dependable (env : Env) : Prop :=
  (forall t c f to, contract_getPastEvents env t c f to <> None) /\
  (forall t n ev w d, logger_logSync env t n ev w d = true) /\
  (forall t c, fs_writeFileSync env t c = true).

(** The trace of a turn of the scheduler in which the height query fails. *)
Definition retry_trace (seconds : Z) : list action :=
  [GetBlockNumber None; ReInit; TimeOut seconds].

(* ================================================================== *)
(** ** What runs are expected to do *)
(* ================================================================== *)
(** The number of turns the loop of [log] still has to make when its
    variable [from] has the value [from]. *)
Definition remaining (L off from : Z) : nat := Z.to_nat (ceil_div (L - from) off).

(** What a run [r] of the loop of [log] does, started in state [st] with
    loop variables [i] and [from], bound [L] and [n] turns to go. *)
Definition loop_post (env : Env) (L off : Z) (fuel : nat) (i from : Z)
                     (st : State) (n : nat) (r : Run (Z * Z * Z)) : Prop :=
  prefix (fetches (emitted r)) (flat_map per_contract (subranges n from off L)) /\
  existsb failed (emitted r) = exited r /\
  (res r = Exit 0 \/
   res r = OutOfFuel /\ (fuel < n)%nat \/
   (exists i' from' to',
      res r = Ok (i', from', to') /\ i' = i + Z.of_nat n /\
      from' = from + Z.of_nat n * off /\ to' = L) /\
   fetches (emitted r) = flat_map per_contract (subranges n from off L) /\
   ((0 < n)%nat ->
      conf (final r) = set_syncedBlockHeight (height L) (conf st) /\
      disk (final r) = Some (conf (final r))) /\
   (n = O -> final r = st /\ emitted r = [])) /\
  sleepInterval (conf (final r)) = sleepInterval (conf st) /\
  offset (conf (final r)) = offset (conf st) /\
  web3 (final r) = web3 st /\
  (dependable env -> (n <= fuel)%nat -> exists x, res r = Ok x).

(** What a run [r] of [log] does, started in state [st] at checkpoint [s],
    with bound [L] and [n] turns to make. *)
Definition log_post (env : Env) (L off : Z) (fuel : nat) (s : Z)
                    (st : State) (n : nat) (r : Run unit) : Prop :=
  prefix (fetches (emitted r)) (flat_map per_contract (subranges n s off L)) /\
  (res r = Exit 0 \/
   res r = OutOfFuel /\ (fuel < n)%nat \/
   res r = Ok tt /\
   fetches (emitted r) = flat_map per_contract (subranges n s off L) /\
   ((0 < n)%nat ->
      conf (final r) = set_syncedBlockHeight (height L) (conf st) /\
      disk (final r) = Some (conf (final r))) /\
   (n = O -> final r = st /\ emitted r = [])) /\
  (dependable env -> (n <= fuel)%nat -> res r = Ok tt).

(** A run that stops the process exactly when a fetch, a hand-over or a
    write has failed, always with exit code 0, that never throws, and that
    leaves the tunable parameters and the chain client alone. *)
Definition orderly {A} (st : State) (r : Run A) : Prop :=
  existsb failed (emitted r) = exited r /\
  (forall code, res r = Exit code -> code = 0) /\
  (forall message, res r <> Throw message) /\
  res r <> Unmodelled /\
  sleepInterval (conf (final r)) = sleepInterval (conf st) /\
  offset (conf (final r)) = offset (conf st) /\
  web3 (final r) = web3 st.

(** A run that stops the process exactly when a fetch, a hand-over or a
    write has failed, and then with exit code 0. *)
Definition fail_stop {A} (r : Run A) : Prop :=
  existsb failed (emitted r) = exited r /\
  (forall code, res r = Exit code -> code = 0).

Definition never_throws {A} (r : Run A) : Prop :=
  forall message, res r <> Throw message.

(* ================================================================== *)
(** ** Concrete worlds used by the scenarios *)
(* ================================================================== *)

(** Numeric strings are not needed by the scenarios. *)
Definition no_numeric_strings (s : string) : number := NaN.

(** Every call succeeds; the chain head is at [head]; every batch is empty
    except the one of the private sale, which holds one event. *)
Definition calm (head : Z) : Env :=
  mkEnv no_numeric_strings (VString "10") (VString "20") (VString "30")
        (fun _ => Some head)
        (fun _ c _ _ => match c with privateSale => Some [7] | _ => Some [] end)
        (fun _ _ _ _ _ => true)
        (fun _ _ => true).

Definition conf0 (synced : value) : Conf := mkConf synced 5 100.

Definition start (synced : value) : State :=
  mkState (conf0 synced) (Some (conf0 synced)) 0 0.

(** Scenario C: the chain head is at 250 and the fetch of the second
    contract fails in the sub-range (200, 250). *)
Definition scenarioC : Env :=
  mkEnv no_numeric_strings (VString "10") (VString "20") (VString "30")
        (fun _ => Some 250)
        (fun _ c f t =>
           match c with
           | privateSale => Some [7]
           | chainGuardian => if (f =? 200) && (t =? 250) then None else Some []
           | trustPad => Some []
           end)
        (fun _ _ _ _ _ => true)
        (fun _ _ => true).

(** The height query fails [n] times, then answers [head]. *)
Definition outage (n : nat) (head : Z) : Env :=
  mkEnv no_numeric_strings (VString "10") (VString "20") (VString "30")
        (fun t => if (t <? 3 * n)%nat then None else Some head)
        (fun _ c _ _ => match c with privateSale => Some [7] | _ => Some [] end)
        (fun _ _ _ _ _ => true)
        (fun _ _ => true).

(* ================================================================== *)
(** ** Further readings of a run *)
(* ================================================================== *)

(** The document on disk is the conf in memory. *)
Definition in_sync (st : State) : Prop := disk st = Some (conf st).

Definition write_failed (a : action) : bool :=
  match a with
  | WriteFile _ false => true
  | _ => false
  end.

Definition is_query (a : action) : bool :=
  match a with GetBlockNumber _ => true | _ => false end.

Definition is_reinit (a : action) : bool :=
  match a with ReInit => true | _ => false end.

(** The actions [log] may perform while the chain client is [w]: neither a
    height query nor a [reInit], and every hand-over with client [w]. *)
Definition log_action (w : nat) (a : action) : bool :=
  match a with
  | GetBlockNumber _ => false
  | ReInit => false
  | LogSync _ _ w' _ _ => Nat.eqb w' w
  | _ => true
  end.

(** The heights [log] writes, turn after turn, when [n] turns are left and
    the loop variable [from] has the value [from]. *)
Fixpoint checkpoint_heights (n : nat) (from off L : Z) : list Z :=
  match n with
  | O => []
  | S n' => Z.min (from + off + off) L
            :: checkpoint_heights n' (from + off) off L
  end.

Fixpoint ascending (l : list Z) : Prop :=
  match l with
  | a :: (b :: _) as t => a <= b /\ ascending t
  | _ => True
  end.

(** What a sub-range does for one contract when nothing fails: the fetch,
    then the hand-over when the batch is not empty. *)
Definition handed_over (env : Env) (c : contract) (from to : Z) (w : nat)
                       (batch : EventBatch) : list action :=
  GetPastEvents c from to (Some batch)
  :: (if (0 <? List.length batch)%nat
      then [LogSync (contract_name c) batch w (contract_duration env c) true]
      else []).

(** The three ways a trace can end when the process is stopped. *)
Definition stopped_by (seconds : Z) (tr : list action) : Prop :=
  exists before,
    (exists c f t, tr = before ++ [GetPastEvents c f t None; TimeOut seconds])
    \/ (exists n ev w d, tr = before ++ [LogSync n ev w d false])
    \/ (exists cf, tr = before ++ [WriteFile cf false]).

(** The trace of a turn of the scheduler that finds nothing to do. *)
Definition idle_trace (head seconds : Z) : list action :=
  [GetBlockNumber (Some head); TimeOut seconds].

(** A process whose document on disk is [c], before [loadConf]. *)
Definition start_with (c : Conf) : State := mkState c (Some c) 0 0.

(** A run that, started with the document on disk equal to the conf in
    memory and completed, leaves them equal. *)
Definition keeps_sync {A} (st : State) (r : Run A) : Prop :=
  in_sync st -> (exists a, res r = Ok a) -> in_sync (final r).

(** Neither a height query nor a [reInit]. *)
Definition quiet (a : action) : bool := negb (is_query a) && negb (is_reinit a).

(** Writes that carry the given tunable parameters. *)
Definition writes_keep (seconds off : Z) (a : action) : bool :=
  match a with
  | WriteFile cf _ => (sleepInterval cf =? seconds) && (offset cf =? off)
  | _ => true
  end.

(* ================================================================== *)
(** ** The same loop on JavaScript numbers *)
(* ================================================================== *)

(** [log] and [cycle] above compute on heights as integers, with an exact
    quotient.  The code's heights are JavaScript numbers (binary64):
    integers up to 2^53 in magnitude are held exactly, every other result
    is rounded to 53 significant bits, to the nearest and to even on a tie.
    [log64] and [cycle64] are [log] and [cycle] with every sum, difference
    and quotient rounded as the code's are; below they are shown to
    coincide with [log] and [cycle] as long as the heights can be held
    exactly.  (A sum of magnitude 2^1024 or more overflows to Infinity in
    the code; sums are kept finite here, so heights and offsets of
    magnitude 2^1023 and more are left out.) *)

(** The integer nearest to [num / den], the even one on a tie
    ([0 <= num], [0 < den]). *)
Definition nearest_even (num den : Z) : Z :=
  let k := num / den in
  let r := num mod den in
  if 2 * r <? den then k
  else if den <? 2 * r then k + 1
  else if Z.even k then k else k + 1.

(** The number nearest to the integer [x]. *)
Definition round64 (x : Z) : Z :=
  let a := Z.abs x in
  if a <? 2 ^ 53 then x
  else
    let ulp := 2 ^ (Z.log2 a - 52) in
    Z.sgn x * (nearest_even a ulp * ulp).

(** [a + b] and [a - b] on numbers that hold integers. *)
Definition fadd (a b : Z) : Z := round64 (a + b).
Definition fsub (a b : Z) : Z := round64 (a - b).

(** The exponent [e] of [a / b]: [2^e <= a / b < 2^(e+1)], for positive
    [a] and [b]. *)
Definition quot_exponent (a b : Z) : Z :=
  let e0 := Z.log2 a - Z.log2 b in
  if (if 0 <=? e0 then 2 ^ e0 * b <=? a else b <=? a * 2 ^ (- e0))
  then e0 else e0 - 1.

(** The number nearest to [a / b], for positive integers [a] and [b]: the
    quotient is scaled to 53 bits (fewer below 2^-1022, where numbers are
    subnormal), rounded to an integer and scaled back. *)
Definition round_quot (a b : Z) : number :=
  let e := Z.max (quot_exponent a b) (-1022) in
  let sh := 52 - e in
  let m := if 0 <=? sh then nearest_even (a * 2 ^ sh) b
           else nearest_even a (b * 2 ^ (- sh)) in
  if (1023 <? e) || ((e =? 1023) && (m =? 2 ^ 53)) then PInf
  else if 0 <=? sh then Fin (Qmake m (Z.to_pos (2 ^ sh)))
  else Fin (inject_Z (m * 2 ^ (- sh))).

Definition negate (n : number) : number :=
  match n with
  | NaN => NaN
  | PInf => NInf
  | NInf => PInf
  | Fin q => Fin (Qopp q)
  end.

(** [a / b] on numbers that hold integers. *)
Definition fdiv (a b : Z) : number :=
  if b =? 0 then
    if a =? 0 then NaN else if 0 <? a then PInf else NInf
  else if a =? 0 then of_Z 0
  else
    let r := round_quot (Z.abs a) (Z.abs b) in
    if 0 <? Z.sgn a * Z.sgn b then r else negate r.

(** Heights the code computes with exactly: everything [log] adds up stays
    within 2^53. *)
Definition exactly_held (latestBlockNum synced off : Z) : Prop :=
  0 <= synced <= 2 ^ 53 /\ 0 <= latestBlockNum /\
  latestBlockNum + off + off <= 2 ^ 53.

Section Program64.

Variable env : Env.

Fixpoint log_loop64 (fuel : nat) (latestBlockNum off : Z)
                    (iterationCount : number) (i from to : Z)
  : M (Z * Z * Z) :=
  if num_ltb (of_Z i) iterationCount then
    match fuel with
    | O => out_of_fuel
    | S fuel' =>
        sync_subrange env from to ;;
        let from := fadd from off in
        let to := if fadd from off >? latestBlockNum
                  then latestBlockNum else fadd from off in
        assign_syncedBlockHeight (height to) ;;
        saveConf env ;;
        log_loop64 fuel' latestBlockNum off iterationCount (fadd i 1) from to
    end
  else ret (i, from, to).

Definition iteration_count64 (latestBlockNum synced off : Z) : number :=
  Math_max (of_Z 0) (fdiv (fsub latestBlockNum synced) off).

Definition first_to64 (latestBlockNum synced off : Z) : Z :=
  if fsub latestBlockNum synced >? off then fadd off synced
  else latestBlockNum.

Definition log64 (fuel : nat) (latestBlockNum synced : Z) : M unit :=
  cf <- get_conf ;;
  let off := offset cf in
  let iterationCount := iteration_count64 latestBlockNum synced off in
  let from := synced in
  let to := first_to64 latestBlockNum synced off in
  log_loop64 fuel latestBlockNum off iterationCount 0 from to ;;
  ret tt.

Definition cycle64 (fuel : nat) : M unit :=
  h <- blockHeights env ;;
  let '(latestBlockNum, synced) := h in
  match latestBlockNum with
  | None =>
      reInit ;;
      cf <- get_conf ;;
      timeOut (sleepInterval cf)
  | Some latest =>
      (if num_ltb (of_Z latest) (ToNumber (StringToNumber env) synced)
       then assign_syncedBlockHeight (height latest) ;; saveConf env
       else ret tt) ;;
      (if num_ltb (ToNumber (StringToNumber env) synced) (of_Z latest)
       then match as_integer synced with
            | Some s => log64 fuel latest s
            | None => unmodelled
            end
       else ret tt) ;;
      cf <- get_conf ;;
      timeOut (sleepInterval cf)
  end.

End Program64.

(* ================================================================== *)
(** ** Fetches and the hand-overs that follow them *)
(* ================================================================== *)

(** [handed_from env w pending tr rest] reads a trace from left to right.
    [pending] is the contract and batch of a fetch that has just returned a
    batch that is not empty and still has to be handed over.  The next
    action must then be the [logSync] call for that contract: its name, the
    batch, the client [w], its duration parameter.  No [logSync] call is
    allowed at any other place.  [rest] is what is pending at the end. *)
Fixpoint handed_from (env : Env) (w : nat)
                     (pending : option (contract * EventBatch))
                     (tr : list action)
                     (rest : option (contract * EventBatch)) : Prop :=
  match tr with
  | [] => pending = rest
  | a :: tr' =>
      match pending with
      | Some (c, batch) =>
          (exists ok,
             a = LogSync (contract_name c) batch w (contract_duration env c) ok)
          /\ handed_from env w None tr' rest
      | None =>
          match a with
          | GetPastEvents c _ _ (Some (e :: es)) =>
              handed_from env w (Some (c, e :: es)) tr' rest
          | LogSync _ _ _ _ _ => False
          | _ => handed_from env w None tr' rest
          end
      end
  end.

(** Every batch that is not empty is handed over right after its fetch,
    and there is no other hand-over. *)
Definition handed (env : Env) (w : nat) (tr : list action) : Prop :=
  handed_from env w None tr None.

(** The fetches of contract [c] that returned a batch that is not empty. *)
Definition nonempty_answer (r : option EventBatch) : bool :=
  match r with
  | Some (_ :: _) => true
  | _ => false
  end.

Definition pending_for (c : contract) (p : option (contract * EventBatch))
  : nat :=
  match p with
  | Some (c', _) => if contract_eqb c c' then 1%nat else 0%nat
  | None => 0%nat
  end.

(** Heights beyond 2^53 = 9007199254740992, where sums are rounded. *)
Definition beyond_2_53 : State :=
  start_with (mkConf (height 9007199254740992) 5 1).

Definition beyond_2_54 : State :=
  start_with (mkConf (height 18014398509481984) 5 3).

(* ================================================================== *)
(** ** Numbers *)
(* ================================================================== *)

Lemma num_ltb_of_Z a b : num_ltb (of_Z a) (of_Z b) = (a <? b).
Proof.
  unfold num_ltb, of_Z, Qltb, inject_Z; cbn. now rewrite !Z.mul_1_r.
Qed.

Lemma as_integer_height s : as_integer (height s) = Some s.
Proof.
  unfold as_integer, height, of_Z, inject_Z, Qred.
  generalize (Z.ggcd_gcd s 1) (Z.ggcd_correct_divisors s 1).
  destruct (Z.ggcd s 1) as (g, (aa, bb)); cbn [fst snd].
  rewrite Z.gcd_1_r. intros -> [Ha Hb].
  assert (Hbb : bb = 1) by lia. assert (Haa : aa = s) by lia.
  rewrite Hbb, Haa. reflexivity.
Qed.

(** The loop test [i < iterationCount], for a positive offset. *)
Lemma loop_test L s off i :
  0 < off -> 0 <= i ->
  num_ltb (of_Z i) (iteration_count L s off) = (i * off <? L - s).
Proof.
  intros Hoff Hi. unfold iteration_count, JS.div.
  destruct (Z.eqb_spec off 0) as [->|_]; [lia|].
  destruct (Z.ltb_spec 0 off) as [_|]; [|lia].
  unfold Math_max, of_Z, Qltb, num_ltb, inject_Z. cbn [Qnum Qden].
  rewrite Z2Pos.id by lia.
  destruct (Z.ltb_spec (0 * off) ((L - s) * 1));
    cbn [Qnum Qden Qltb]; unfold Qltb; cbn [Qnum Qden];
    rewrite ?Z2Pos.id by lia;
    destruct (Z.ltb_spec (i * off) (L - s));
    try (apply Z.ltb_lt; nia); apply Z.ltb_ge; nia.
Qed.

Lemma ceil_div_bounds a b :
  0 < b -> (ceil_div a b - 1) * b < a <= ceil_div a b * b.
Proof.
  intros Hb. unfold ceil_div.
  pose proof (Z.div_mod (a + b - 1) b ltac:(lia)) as E.
  pose proof (Z.mod_pos_bound (a + b - 1) b Hb) as B.
  nia.
Qed.

Lemma ceil_div_step a b : 0 < b -> ceil_div a b = ceil_div (a - b) b + 1.
Proof.
  intros Hb. unfold ceil_div.
  replace (a + b - 1) with (a - b + b - 1 + 1 * b) by lia.
  rewrite Z.div_add by lia. reflexivity.
Qed.

Lemma ceil_div_nonpos a b : 0 < b -> a <= 0 -> ceil_div a b <= 0.
Proof.
  intros Hb Ha. pose proof (ceil_div_bounds a b Hb). nia.
Qed.

Lemma ceil_div_pos a b : 0 < b -> 0 < a -> 0 < ceil_div a b.
Proof.
  intros Hb Ha. pose proof (ceil_div_bounds a b Hb). nia.
Qed.

Lemma remaining_done L off from : 0 < off -> L <= from -> remaining L off from = O.
Proof.
  intros Hoff H. unfold remaining.
  pose proof (ceil_div_nonpos (L - from) off Hoff ltac:(lia)). lia.
Qed.

Lemma remaining_step L off from :
  0 < off -> from < L -> remaining L off from = S (remaining L off (from + off)).
Proof.
  intros Hoff H. unfold remaining.
  rewrite (ceil_div_step (L - from) off Hoff).
  replace (L - from - off) with (L - (from + off)) by lia.
  destruct (Z_lt_le_dec (from + off) L) as [Hlt|Hge].
  - pose proof (ceil_div_pos (L - (from + off)) off Hoff ltac:(lia)). lia.
  - pose proof (ceil_div_nonpos (L - (from + off)) off Hoff ltac:(lia)) as Hn.
    pose proof (ceil_div_bounds (L - (from + off)) off Hoff) as Hb.
    assert (ceil_div (L - (from + off)) off = 0) by nia. lia.
Qed.

(* ================================================================== *)
(** ** The sub-ranges of the specification *)
(* ================================================================== *)

Lemma subranges_length n from size latest :
  List.length (subranges n from size latest) = n.
Proof.
  revert from. induction n as [|n IH]; intros from; cbn; [reflexivity|].
  now rewrite IH.
Qed.

(** Cut into [ceil((latest - from) / size)] pieces, the interval from
    [from] to [latest] is covered without a gap and without an overlap. *)
Lemma subranges_chain size latest :
  0 < size ->
  forall n from, from <= latest -> n = remaining latest size from ->
  chain from (subranges n from size latest) latest.
Proof.
  intros Hsize. induction n as [|n IH]; intros from Hle Hn.
  - cbn. destruct (Z_lt_le_dec from latest) as [Hlt|Hge]; [|lia].
    rewrite (remaining_step _ _ _ Hsize Hlt) in Hn. discriminate.
  - cbn. destruct (Z_lt_le_dec from latest) as [Hlt|Hge].
    + rewrite (remaining_step _ _ _ Hsize Hlt) in Hn. injection Hn as Hn.
      split; [reflexivity|]. split; [lia|].
      destruct (Z_lt_le_dec (from + size) latest) as [Hlt'|Hge'].
      * rewrite Z.min_l by lia. apply IH; [lia|assumption].
      * rewrite Z.min_r by lia.
        rewrite (remaining_done _ _ _ Hsize Hge') in Hn. subst n. reflexivity.
    + rewrite (remaining_done _ _ _ Hsize Hge) in Hn. discriminate.
Qed.

(** In a chain every range runs forward. *)
Lemma chain_forward l : forall a b f t, chain a l b -> In (f, t) l -> f < t.
Proof.
  induction l as [|[f0 t0] l IH]; intros a b f t Hc Hin; [contradiction|].
  cbn in Hc. destruct Hc as (_ & Hlt & Hc). destruct Hin as [E|Hin].
  - injection E as -> ->. exact Hlt.
  - eapply IH; eassumption.
Qed.

Lemma prefix_nil {A} (l : list A) : prefix [] l.
Proof. now exists l. Qed.

Lemma prefix_refl {A} (l : list A) : prefix l l.
Proof. exists []. now rewrite app_nil_r. Qed.

Lemma prefix_app {A} (l k1 k2 : list A) : prefix k1 k2 -> prefix (l ++ k1) (l ++ k2).
Proof. intros [rest ->]. exists rest. now rewrite app_assoc. Qed.

Lemma prefix_app_l {A} (l1 l2 k : list A) : prefix l1 l2 -> prefix l1 (l2 ++ k).
Proof. intros [rest ->]. exists (rest ++ k). now rewrite app_assoc. Qed.

Lemma prefix_In {A} (l1 l2 : list A) x : prefix l1 l2 -> In x l1 -> In x l2.
Proof. intros [rest ->] H. apply in_or_app. now left. Qed.

Lemma fetches_app tr1 tr2 : fetches (tr1 ++ tr2) = fetches tr1 ++ fetches tr2.
Proof. apply flat_map_app. Qed.

Lemma checkpoints_app tr1 tr2 :
  checkpoints (tr1 ++ tr2) = checkpoints tr1 ++ checkpoints tr2.
Proof. apply flat_map_app. Qed.

(* ================================================================== *)
(** ** One sub-range *)
(* ================================================================== *)

Ltac env_case :=
  match goal with
  | |- context [contract_getPastEvents ?e ?t ?c ?f ?to] =>
      destruct (contract_getPastEvents e t c f to) as [[|? ?]|] eqn:?
  | |- context [logger_logSync ?e ?t ?n ?ev ?w ?d] =>
      destruct (logger_logSync e t n ev w d) eqn:?
  | |- context [fs_writeFileSync ?e ?t ?c] =>
      destruct (fs_writeFileSync e t c) eqn:?
  end; cbn.

Ltac undependable :=
  match goal with
  | D : dependable _ |- _ =>
      destruct D as (Hfetch & Hlog & Hwrite);
      repeat match goal with
      | H : contract_getPastEvents _ _ _ _ _ = None |- _ =>
          apply Hfetch in H; contradiction
      | H : logger_logSync _ _ _ _ _ _ = false |- _ =>
          rewrite Hlog in H; discriminate
      | H : fs_writeFileSync _ _ _ = false |- _ =>
          rewrite Hwrite in H; discriminate
      end
  end.

Section SubRange.

Variable env : Env.

Lemma sync_subrange_spec from to st :
  let r := sync_subrange env from to st in
  conf (final r) = conf st /\ disk (final r) = disk st /\
  web3 (final r) = web3 st /\
  prefix (fetches (emitted r)) (per_contract (from, to)) /\
  (res r = Ok tt -> fetches (emitted r) = per_contract (from, to)) /\
  checkpoints (emitted r) = [] /\
  existsb failed (emitted r) = exited r /\
  (res r = Ok tt \/ res r = Exit 0) /\
  (dependable env -> res r = Ok tt).
Proof.
  cbv [sync_subrange fetchEvents logEvents getPastEvents logSync timeOut
       get_conf get_web3 process_exit bind ret]. cbn.
  repeat env_case.
  all: unfold prefix, per_contract, exited; cbn.
  all: repeat split; try reflexivity; try discriminate; eauto.
  all: intros D; undependable.
Qed.

Lemma saveConf_spec st :
  let r := saveConf env st in
  conf (final r) = conf st /\ web3 (final r) = web3 st /\
  fetches (emitted r) = [] /\
  existsb failed (emitted r) = exited r /\
  (res r = Ok tt /\ disk (final r) = Some (conf st) /\
     emitted r = [WriteFile (conf st) true]
   \/ res r = Exit 0 /\ disk (final r) = disk st /\
     emitted r = [WriteFile (conf st) false]) /\
  (dependable env -> res r = Ok tt).
Proof.
  cbv [saveConf writeFileSync get_conf process_exit bind ret]. cbn.
  env_case; unfold exited; cbn; repeat split; auto.
  intros D; undependable.
Qed.

End SubRange.

(* ================================================================== *)
(** ** The loop of log *)
(* ================================================================== *)

Ltac run_simpl :=
  cbn [res final emitted ret out_of_fuel process_exit throw unmodelled
       exited existsb failed flat_map fetch_of write_of
       app subranges per_contract orb assign_syncedBlockHeight conf disk web3
       clock set_syncedBlockHeight syncedBlockHeight sleepInterval offset].

Ltac run_simpl_in H :=
  cbn [res final emitted ret out_of_fuel process_exit throw unmodelled
       exited existsb failed flat_map fetch_of write_of
       app subranges per_contract orb assign_syncedBlockHeight conf disk web3
       clock set_syncedBlockHeight syncedBlockHeight sleepInterval offset] in H.

Section Loop.

Variable env : Env.
Variables L s off : Z.
Hypothesis Hoff : 0 < off.

Lemma next_to from :
  (if from + off + off >? L then L else from + off + off)
  = Z.min (from + off + off) L.
Proof. destruct (Z.gtb_spec (from + off + off) L); lia. Qed.

Lemma log_loop_spec fuel : forall i from st,
  0 <= i -> from = s + i * off ->
  loop_post env L off fuel i from st (remaining L off from)
    (log_loop env fuel L off (iteration_count L s off) i from
              (Z.min (from + off) L) st).
Proof.
  induction fuel as [|fuel IH]; intros i from st Hi Hfrom;
    match goal with |- loop_post _ _ _ _ _ _ _ _ ?X => remember X as r eqn:Hr end;
    cbn [log_loop] in Hr;
    rewrite (loop_test L s off i Hoff Hi) in Hr;
    (destruct (Z.ltb_spec (i * off) (L - s)) as [Hlt|Hge];
     [ rewrite (remaining_step L off from Hoff ltac:(lia))
     | rewrite (remaining_done L off from Hoff ltac:(lia)) ]);
    unfold loop_post.
  - subst r. run_simpl. repeat split; auto using prefix_nil.
    + right; left. split; [reflexivity|lia].
    + intros _ Hle. lia.
  - subst r. run_simpl. repeat split; auto using prefix_nil; [|eauto].
    right; right. repeat split; try lia.
    exists i, from, (Z.min (from + off) L). repeat split; lia.
  - pose proof (sync_subrange_spec env from (Z.min (from + off) L) st) as H1.
    unfold bind at 1 in Hr.
    destruct (sync_subrange env from (Z.min (from + off) L) st)
      as [[[]|c|m| |] st1 tr1]; cbn [res final emitted exited] in H1;
      destruct H1 as (Hc1 & Hd1 & Hw1 & Hp1 & Hf1 & Hk1 & He1 & Ho1 & Hdep1);
      try (destruct Ho1; discriminate).
    2:{ destruct Ho1 as [|Ho1]; [discriminate|]. injection Ho1 as ->.
        subst r. run_simpl.
        repeat split; try congruence.
        - exact (prefix_app_l _ _ _ Hp1).
        - now left.
        - intros D _. specialize (Hdep1 D). discriminate. }
    specialize (Hf1 eq_refl).
    rewrite next_to in Hr.
    unfold bind at 1 in Hr. run_simpl_in Hr.
    unfold bind at 1 in Hr.
    match type of Hr with context [saveConf env ?st2] =>
      pose proof (saveConf_spec env st2) as H2;
      destruct (saveConf env st2) as [[[]|c|m| |] st2' tr2] eqn:E2
    end; cbn [res final emitted exited conf disk web3 clock] in H2;
      destruct H2 as (Hc2 & Hw2 & Hf2 & He2 & Ho2 & Hdep2);
      try (destruct Ho2 as [(?&_)|(?&_)]; discriminate).
    2:{ destruct Ho2 as [(?&_)|(Ho2 & Hd2 & ->)]; [discriminate|].
        injection Ho2 as ->.
        subst r. run_simpl.
        rewrite fetches_app, Hf1, existsb_app, He1. run_simpl.
        repeat split; try congruence.
        - exists (flat_map per_contract
                    (subranges (remaining L off (from + off)) (from + off) off L)).
          reflexivity.
        - now left.
        - rewrite Hc2. run_simpl. congruence.
        - rewrite Hc2. run_simpl. congruence.
        - intros D _. specialize (Hdep2 D). discriminate. }
    destruct Ho2 as [(_ & Hd2 & ->)|(?&_)]; [|discriminate].
    specialize (IH (i + 1) (from + off) st2' ltac:(lia) ltac:(lia)).
    unfold loop_post in IH.
    destruct (log_loop env fuel L off (iteration_count L s off) (i + 1)
                (from + off) (Z.min (from + off + off) L) st2')
      as [r3 st3 tr3].
    subst r.
    cbn [res final emitted exited] in IH |- *.
    destruct IH as (Hp3 & He3 & Ho3 & Hs3 & Hof3 & Hw3 & Hdep3).
    rewrite !fetches_app, Hf1, !existsb_app, He1. run_simpl.
    repeat split.
    + destruct Hp3 as [rest ->]. exists rest. reflexivity.
    + exact He3.
    + destruct Ho3 as [->|[(-> & Hlt3)|((i' & from' & to' & -> & Hi' & Hfr' & Hto')
                                         & Hf3 & Hpos3 & Hz3)]].
      * now left.
      * right; left. split; [reflexivity|lia].
      * right; right. repeat split.
        -- exists i', from', to'. repeat split; lia.
        -- rewrite Hf3. reflexivity.
        -- destruct (remaining L off (from + off)) eqn:En.
           ++ destruct (Hz3 eq_refl) as (-> & _). rewrite Hc2. run_simpl.
              assert (L <= from + off).
              { destruct (Z_lt_le_dec (from + off) L) as [Hl|]; [|assumption].
                rewrite (remaining_step L off _ Hoff Hl) in En. discriminate. }
              unfold set_syncedBlockHeight. rewrite Hc1. do 2 f_equal. lia.
           ++ destruct (Hpos3 ltac:(lia)) as (-> & _). rewrite Hc2.
              unfold set_syncedBlockHeight. run_simpl. rewrite Hc1. reflexivity.
        -- destruct (remaining L off (from + off)) eqn:En.
           ++ destruct (Hz3 eq_refl) as (-> & _). rewrite Hd2, Hc2. reflexivity.
           ++ destruct (Hpos3 ltac:(lia)) as (_ & ->). reflexivity.
        -- discriminate.
        -- discriminate.
    + rewrite Hs3, Hc2. run_simpl. congruence.
    + rewrite Hof3, Hc2. run_simpl. congruence.
    + rewrite Hw3, Hw2. run_simpl. congruence.
    + intros D Hle. apply Hdep3; [assumption|lia].
  - subst r. run_simpl. repeat split; auto using prefix_nil; [|eauto].
    right; right. repeat split; try lia.
    exists i, from, (Z.min (from + off) L). repeat split; lia.
Qed.

End Loop.

(* ================================================================== *)
(** ** log *)
(* ================================================================== *)

Lemma orderly_bind {A B} (m : M A) (f : A -> M B) st :
  orderly st (m st) ->
  (forall a, res (m st) = Ok a -> orderly (final (m st)) (f a (final (m st)))) ->
  orderly st (bind m f st).
Proof.
  unfold bind.
  destruct (m st) as [[a|c|msg| |] st1 tr1]; cbn [res final emitted];
    intros H1 H2; try exact H1.
  - specialize (H2 a eq_refl). destruct (f a st1) as [r2 st2 tr2].
    unfold orderly, exited in *. cbn [res final emitted] in *.
    destruct H1 as (E1 & _ & _ & _ & S1 & O1 & W1).
    destruct H2 as (E2 & C2 & T2 & U2 & S2 & O2 & W2).
    rewrite existsb_app, E1. cbn [orb].
    repeat split; try assumption; congruence.
  - unfold orderly, exited in *. cbn [res final emitted] in *.
    destruct H1 as (E1 & C1 & T1 & U1 & S1 & O1 & W1).
    repeat split; try assumption; try congruence.
    intros code E. injection E as <-. now apply C1.
  - unfold orderly in H1. cbn [res] in H1.
    destruct H1 as (_ & _ & T1 & _). now contradiction (T1 msg).
  - unfold orderly in H1. cbn [res] in H1. tauto.
  - unfold orderly, exited in *. cbn [res final emitted] in *.
    destruct H1 as (E1 & C1 & T1 & U1 & S1 & O1 & W1).
    repeat split; try assumption; congruence.
Qed.

Section Log.

Variable env : Env.

Lemma sync_subrange_orderly from to st :
  orderly st (sync_subrange env from to st).
Proof.
  pose proof (sync_subrange_spec env from to st) as H. cbv zeta in H.
  destruct H as (Hc & _ & Hw & _ & _ & _ & He & Ho & _).
  unfold orderly. rewrite Hc.
  repeat split; try assumption;
    destruct Ho as [-> | ->]; try discriminate; congruence.
Qed.

Lemma saveConf_orderly st : orderly st (saveConf env st).
Proof.
  pose proof (saveConf_spec env st) as H. cbv zeta in H.
  destruct H as (Hc & Hw & _ & He & Ho & _).
  unfold orderly. rewrite Hc.
  repeat split; try assumption;
    destruct Ho as [(-> & _) | (-> & _)]; try discriminate; congruence.
Qed.

Lemma log_loop_orderly L off count fuel : forall i from to st,
  orderly st (log_loop env fuel L off count i from to st).
Proof.
  induction fuel as [|fuel IH]; intros i from to st; cbn [log_loop];
    destruct (num_ltb (of_Z i) count).
  - unfold orderly, exited; cbn. repeat split; congruence.
  - unfold orderly, exited; cbn. repeat split; congruence.
  - apply orderly_bind; [apply sync_subrange_orderly|]. intros _ _.
    apply orderly_bind.
    { unfold orderly, exited; cbn. repeat split; congruence. }
    intros _ _. apply orderly_bind; [apply saveConf_orderly|].
    intros _ _. apply IH.
  - unfold orderly, exited; cbn. repeat split; congruence.
Qed.

Lemma log_orderly fuel L s st : orderly st (log env fuel L s st).
Proof.
  unfold log. apply orderly_bind.
  { unfold orderly, exited; cbn. repeat split; congruence. }
  intros cf _. apply orderly_bind; [apply log_loop_orderly|].
  intros x _. unfold orderly, exited; cbn. repeat split; congruence.
Qed.

Lemma first_to_min L s off : first_to L s off = Z.min (s + off) L.
Proof. unfold first_to. destruct (Z.gtb_spec (L - s) off); lia. Qed.

Lemma log_spec fuel L s st :
  0 < offset (conf st) ->
  log_post env L (offset (conf st)) fuel s st
           (remaining L (offset (conf st)) s) (log env fuel L s st).
Proof.
  intros Hoff.
  pose proof (log_loop_spec env L s (offset (conf st)) Hoff fuel 0 s st
                ltac:(lia) ltac:(lia)) as H.
  unfold log, bind at 1. cbn [get_conf res final emitted].
  rewrite first_to_min. unfold bind.
  destruct (log_loop env fuel L (offset (conf st))
              (iteration_count L s (offset (conf st))) 0 s
              (Z.min (s + offset (conf st)) L) st) as [r1 st1 tr1].
  unfold loop_post in H. cbn [res final emitted] in H.
  destruct H as (Hp & _ & Ho & _ & _ & _ & Hdep).
  unfold log_post.
  destruct Ho as [->|[(-> & Hlt)|((i' & from' & to' & -> & _) & Hf & Hpos & Hz)]];
    cbn [ret res final emitted app]; rewrite ?app_nil_r.
  - repeat split; auto. intros D Hle. destruct (Hdep D Hle). discriminate.
  - repeat split; auto. intros D Hle. lia.
  - repeat split; auto. right; right. repeat split; auto.
    + apply Hpos. assumption.
    + apply Hpos. assumption.
    + apply Hz. assumption.
    + apply Hz. assumption.
Qed.

End Log.

(* ================================================================== *)
(** ** The claims about log *)
(* ================================================================== *)

Lemma calm_dependable head : dependable (calm head).
Proof.
  repeat split; cbn; try reflexivity.
  intros _ c _ _. destruct c; discriminate.
Qed.

(** With heights added exactly: for [synced <= latest] and a positive
    offset, the ranges [log] hands to [getPastEvents] are, contract after contract, the sub-ranges
    [(from, min(from + offset, latest))] that start at [synced], follow one
    another without a gap or an overlap and end at [latest]; there are
    [ceil((latest - synced) / offset)] of them, none when [synced = latest].
    A run cut short by a failure has fetched a prefix of them; a run that
    completes has fetched them all and, when there was a gap, has left
    [latest] as the persisted checkpoint; with enough fuel and no failing
    collaborator the run does complete.  The loop counter [i] has the value
    [ceil((latest - synced) / offset)] when the loop is left. *)
Lemma ideal_subranges_cover_the_gap env fuel st latest synced :
  synced <= latest -> 0 < offset (conf st) ->
  let off := offset (conf st) in
  let n := ceil_div (latest - synced) off in
  let ranges := subranges (Z.to_nat n) synced off latest in
  let r := log env fuel latest synced st in
  (0 <= n /\ (n - 1) * off < latest - synced <= n * off /\
   (synced = latest -> ranges = [])) /\
  List.length ranges = Z.to_nat n /\
  chain synced ranges latest /\
  prefix (fetches (emitted r)) (flat_map per_contract ranges) /\
  (res r = Ok tt ->
     fetches (emitted r) = flat_map per_contract ranges /\
     (synced < latest ->
        disk (final r)
        = Some (set_syncedBlockHeight (height latest) (conf st)))) /\
  (dependable env -> (Z.to_nat n <= fuel)%nat -> res r = Ok tt) /\
  (forall i from to,
     res (log_loop env fuel latest off (iteration_count latest synced off)
                   0 synced (first_to latest synced off) st)
     = Ok (i, from, to) ->
     i = n).
Proof.
  intros Hle Hoff off n ranges r.
  pose proof (ceil_div_bounds (latest - synced) off Hoff) as Hb. fold n in Hb.
  assert (Hn : 0 <= n) by nia.
  pose proof (log_spec env fuel latest synced st Hoff) as H.
  unfold log_post, remaining in H. fold off n ranges r in H.
  destruct H as (Hp & Ho & Hdep).
  split; [|split; [|split; [|split; [|split; [|split]]]]].
  - repeat split; try lia. intros ->. subst ranges.
    replace n with 0 by nia. reflexivity.
  - apply subranges_length.
  - apply subranges_chain; [assumption|assumption|reflexivity].
  - exact Hp.
  - intros Hok. destruct Ho as [E|[(E & _)|(_ & Hf & Hpos & _)]];
      [rewrite Hok in E; discriminate..|].
    split; [exact Hf|]. intros Hlt.
    assert (0 < n) by nia.
    destruct (Hpos ltac:(lia)) as (Hc & Hd). now rewrite Hd, Hc.
  - exact Hdep.
  - intros i from to Hres.
    pose proof (log_loop_spec env latest synced off Hoff fuel 0 synced st
                  ltac:(lia) ltac:(lia)) as Hloop.
    rewrite <- first_to_min in Hloop.
    destruct Hloop as (_ & _ & Hcases & _). rewrite Hres in Hcases.
    destruct Hcases as [E|[(E & _)|((i' & from' & to' & E & Hi & _) & _)]];
      try discriminate.
    injection E as -> _ _. unfold remaining in Hi. fold n in Hi. lia.
Qed.

(** With heights added exactly: for [synced < latest] and a positive
    offset, every range [log] hands to [getPastEvents] runs forward. *)
Lemma ideal_fetched_ranges_run_forward env fuel st latest synced c f t :
  synced < latest -> 0 < offset (conf st) ->
  In (c, (f, t)) (fetches (emitted (log env fuel latest synced st))) ->
  f <= t.
Proof.
  intros Hlt Hoff Hin.
  pose proof (log_spec env fuel latest synced st Hoff) as H.
  destruct H as (Hp & _).
  apply (prefix_In _ _ _ Hp) in Hin.
  apply in_flat_map in Hin. destruct Hin as ([f' t'] & Hr & Hc).
  assert (E : (f', t') = (f, t)).
  { cbn in Hc. destruct Hc as [E|[E|[E|[]]]]; congruence. }
  injection E as -> ->.
  apply Z.lt_le_incl.
  eapply chain_forward; [|exact Hr].
  apply subranges_chain; [assumption|lia|reflexivity].
Qed.

(** C1.  Scenario C run on the code: checkpoint 100, chain head 250,
    sub-range size 100, and the fetch of the second contract failing in the
    sub-range (200, 250).  The checkpoint written at the end of the
    sub-range (100, 200) is 250, not 200, and it is the value on disk when
    the process stops inside the sub-range (200, 250). *)
Theorem C1_checkpoint_runs_ahead :
  let r := log scenarioC 10 250 100 (start (height 100)) in
  emitted r =
    [GetPastEvents privateSale 100 200 (Some [7]);
     LogSync "private-sale" [7] 0%nat (VString "10") true;
     TimeOut 1;
     GetPastEvents chainGuardian 100 200 (Some []);
     TimeOut 1;
     GetPastEvents trustPad 100 200 (Some []);
     WriteFile (mkConf (height 250) 5 100) true;
     GetPastEvents privateSale 200 250 (Some [7]);
     LogSync "private-sale" [7] 0%nat (VString "10") true;
     TimeOut 1;
     GetPastEvents chainGuardian 200 250 None;
     TimeOut 5] /\
  res r = Exit 0 /\
  checkpoints (emitted r) = [height 250] /\
  disk (final r) = Some (mkConf (height 250) 5 100).
Proof. vm_compute. repeat split. Qed.

(** C3, refuted as stated: in Scenario C the failed fetch stops the process
    with exit code 0. *)
Lemma C3_failed_fetch_exits_with_zero :
  let r := log scenarioC 10 250 100 (start (height 100)) in
  In (GetPastEvents chainGuardian 200 250 None) (emitted r) /\
  res r = Exit 0 /\
  ~ (exists code, res r = Exit code /\ code <> 0).
Proof.
  vm_compute. split; [|split].
  - do 10 right. left. reflexivity.
  - reflexivity.
  - intros (code & E & Hne). injection E as <-. now apply Hne.
Qed.

(** Within the part of the loop body that handles one sub-range, the
    [logSync] calls made under a contract's name are read off the answer
    its fetch got. *)
Lemma subrange_logSync_calls env from to st c :
  let tr := emitted (sync_subrange env from to st) in
  (List.length (fetched c tr) <= 1)%nat /\
  logSync_calls (contract_name c) tr =
    match fetched c tr with
    | [Some (e :: es)] =>
        [(contract_name c, e :: es, web3 st, contract_duration env c)]
    | _ => []
    end /\
  (forall n ev w d ok,
     In (LogSync n ev w d ok) tr -> exists c', n = contract_name c').
Proof.
  cbv [sync_subrange fetchEvents logEvents getPastEvents logSync timeOut
       get_conf get_web3 process_exit bind ret]. cbn.
  repeat env_case.
  all: destruct c; cbn; (split; [lia|split; [reflexivity|]]).
  all: intros n ev w d ok Hin;
    repeat (destruct Hin as [Hin|Hin];
            [ try discriminate;
              injection Hin as <- <- <- <- <-;
              first [ now exists privateSale | now exists chainGuardian
                    | now exists trustPad ]
            | ]);
    contradiction.
Qed.

(* ================================================================== *)
(** ** The scheduler *)
(* ================================================================== *)

Lemma fail_stop_bind {A B} (m : M A) (f : A -> M B) st :
  fail_stop (m st) ->
  (forall a, res (m st) = Ok a -> fail_stop (f a (final (m st)))) ->
  fail_stop (bind m f st).
Proof.
  unfold bind, fail_stop, exited.
  destruct (m st) as [[a|c|msg| |] st1 tr1]; cbn [res final emitted];
    intros (E1 & C1) H2.
  - destruct (H2 a eq_refl) as (E2 & C2). destruct (f a st1) as [r2 st2 tr2].
    cbn [res final emitted] in *. rewrite existsb_app, E1. now split.
  - split; [assumption|]. intros code E. injection E as <-. now apply C1.
  - split; [assumption|discriminate].
  - split; [assumption|discriminate].
  - split; [assumption|discriminate].
Qed.

Lemma never_throws_bind {A B} (m : M A) (f : A -> M B) st :
  never_throws (m st) ->
  (forall a, res (m st) = Ok a -> never_throws (f a (final (m st)))) ->
  never_throws (bind m f st).
Proof.
  unfold bind, never_throws.
  destruct (m st) as [[a|c|msg| |] st1 tr1]; cbn [res final emitted];
    intros H1 H2; try discriminate.
  - specialize (H2 a eq_refl). destruct (f a st1) as [r2 st2 tr2]. exact H2.
  - now contradiction (H1 msg).
Qed.

Lemma orderly_fail_stop {A} st (r : Run A) : orderly st r -> fail_stop r.
Proof. intros (E & C & _). now split. Qed.

Lemma orderly_never_throws {A} st (r : Run A) : orderly st r -> never_throws r.
Proof. intros (_ & _ & T & _). exact T. Qed.

Lemma quiet_fail_stop {A} (a : A) st : fail_stop (mkRun (Ok a) st []).
Proof. split; [reflexivity|discriminate]. Qed.

Section Scheduler.

Variable env : Env.

Lemma timeOut_fail_stop seconds st : fail_stop (timeOut seconds st).
Proof. split; [reflexivity|discriminate]. Qed.

Lemma cycle_fail_stop fuel st : fail_stop (cycle env fuel st).
Proof.
  unfold cycle. apply fail_stop_bind.
  - unfold blockHeights. apply fail_stop_bind; [apply quiet_fail_stop|].
    intros cf _. destruct (isNaN _ _).
    + split; [reflexivity|discriminate].
    + apply fail_stop_bind; [split; [reflexivity|discriminate]|].
      intros [latest|] _; apply quiet_fail_stop.
  - intros [[latest|] v] _.
    + apply fail_stop_bind.
      { destruct (num_ltb _ _); [|apply quiet_fail_stop].
        apply fail_stop_bind; [apply quiet_fail_stop|].
        intros _ _. eapply orderly_fail_stop, saveConf_orderly. }
      intros _ _. apply fail_stop_bind.
      { destruct (num_ltb _ _); [|apply quiet_fail_stop].
        destruct (as_integer v).
        - eapply orderly_fail_stop, log_orderly.
        - split; [reflexivity|discriminate]. }
      intros _ _. apply fail_stop_bind; [apply quiet_fail_stop|].
      intros cf _. apply timeOut_fail_stop.
    + apply fail_stop_bind; [split; [reflexivity|discriminate]|].
      intros _ _. apply fail_stop_bind; [apply quiet_fail_stop|].
      intros cf _. apply timeOut_fail_stop.
Qed.

End Scheduler.

(* ================================================================== *)
(** ** One turn of the scheduler, case by case *)
(* ================================================================== *)

Ltac open_cycle :=
  cbv [cycle blockHeights bind get_conf getBlockNumber reInit timeOut ret
       throw assign_syncedBlockHeight saveConf writeFileSync process_exit
       unmodelled tick];
  cbn [conf disk web3 clock res final emitted].

Lemma isNaN_height f s : isNaN f (height s) = false.
Proof. reflexivity. Qed.

Lemma ToNumber_height f s : ToNumber f (height s) = of_Z s.
Proof. reflexivity. Qed.

Ltac heights Hs Ho :=
  open_cycle; rewrite Hs, isNaN_height; cbv beta iota;
  cbn [conf disk web3 clock res final emitted];
  rewrite Ho; cbv beta iota;
  cbn [conf disk web3 clock res final emitted app];
  rewrite ?ToNumber_height, ?num_ltb_of_Z, ?as_integer_height.

Section Turn.

Variable env : Env.

Lemma cycle_never_throws_after_check fuel st :
  isNaN (StringToNumber env) (syncedBlockHeight (conf st)) = false ->
  never_throws (cycle env fuel st).
Proof.
  intros Hnan. unfold cycle. apply never_throws_bind.
  - unfold blockHeights. apply never_throws_bind; [discriminate|].
    intros cf Hcf. injection Hcf as <-. cbn [final get_conf]. rewrite Hnan.
    apply never_throws_bind; [discriminate|].
    intros [latest|] _; discriminate.
  - intros [[latest|] v] _.
    + apply never_throws_bind.
      { destruct (num_ltb _ _); [|discriminate].
        apply never_throws_bind; [discriminate|].
        intros _ _. eapply orderly_never_throws, saveConf_orderly. }
      intros _ _. apply never_throws_bind.
      { destruct (num_ltb _ _); [|discriminate].
        destruct (as_integer v).
        - eapply orderly_never_throws, log_orderly.
        - discriminate. }
      intros _ _. apply never_throws_bind; [discriminate|].
      intros cf _. discriminate.
    + apply never_throws_bind; [discriminate|].
      intros _ _. apply never_throws_bind; [discriminate|].
      intros cf _. discriminate.
Qed.

Lemma cycle_starts_with_the_query fuel st :
  isNaN (StringToNumber env) (syncedBlockHeight (conf st)) = false ->
  exists rest,
    emitted (cycle env fuel st)
    = GetBlockNumber (eth_getBlockNumber env (clock st)) :: rest.
Proof.
  intros Hnan. unfold cycle, bind at 1.
  assert (E : blockHeights env st
              = mkRun (Ok (eth_getBlockNumber env (clock st),
                           syncedBlockHeight (conf st)))
                      (tick st)
                      [GetBlockNumber (eth_getBlockNumber env (clock st))]).
  { cbv [blockHeights bind get_conf getBlockNumber ret]. rewrite Hnan.
    destruct (eth_getBlockNumber env (clock st)); reflexivity. }
  rewrite E.
  match goal with |- context [match ?X with mkRun _ _ _ => _ end] =>
    destruct X as [r2 st2 tr2] end.
  cbn [emitted app]. eauto.
Qed.

Lemma cycle_outage fuel st s :
  syncedBlockHeight (conf st) = height s ->
  eth_getBlockNumber env (clock st) = None ->
  cycle env fuel st
  = mkRun (Ok tt)
          (mkState (conf st) (disk st) (S (web3 st)) (3 + clock st))
          (retry_trace (sleepInterval (conf st))).
Proof. intros Hs Ho. heights Hs Ho. reflexivity. Qed.


Lemma bind_get_conf {B} (f : Conf -> M B) st :
  bind get_conf f st = f (conf st) st.
Proof.
  unfold bind, get_conf. destruct (f (conf st) st). reflexivity.
Qed.


End Turn.

(** C10, refuted as stated: [null] is not a number, yet [blockHeights]
    does not raise on it and goes on to query the chain. *)
Lemma C10_null_is_let_through :
  let r := blockHeights (calm 250) (start VNull) in
  is_number VNull = false /\
  res r = Ok (Some 250, VNull) /\
  emitted r = [GetBlockNumber (Some 250)].
Proof. vm_compute. repeat split. Qed.

(** C10, as the code has it.  [blockHeights] raises 'syncedBlockHeight must
    be integer' exactly when [isNaN] holds of the conf's [syncedBlockHeight],
    that is when its conversion to a number is NaN: always for a missing
    field and for NaN, never for another number, for [null] or for a
    boolean, and for a string or an object as its conversion decides.  The
    test is made at the start of every turn of the scheduler, whatever the
    state: when it fires the turn raises before any action is performed and
    leaves the state untouched; when it does not, the turn raises nothing,
    its first action is the height query, and a failing query is returned
    as an undefined height. *)
Theorem C10_blockHeights_check env fuel st :
  let v := syncedBlockHeight (conf st) in
  let message := "syncedBlockHeight must be integer" in
  ((exists m, res (blockHeights env st) = Throw m)
   <-> isNaN (StringToNumber env) v = true) /\
  (isNaN (StringToNumber env) v = true ->
     blockHeights env st = mkRun (Throw message) st [] /\
     cycle env fuel st = mkRun (Throw message) st []) /\
  (isNaN (StringToNumber env) v = false ->
     blockHeights env st
     = mkRun (Ok (eth_getBlockNumber env (clock st), v)) (tick st)
             [GetBlockNumber (eth_getBlockNumber env (clock st))] /\
     never_throws (cycle env fuel st) /\
     exists rest,
       emitted (cycle env fuel st)
       = GetBlockNumber (eth_getBlockNumber env (clock st)) :: rest) /\
  (isNaN (StringToNumber env) VUndefined = true /\
   isNaN (StringToNumber env) (VNumber NaN) = true /\
   (forall q, isNaN (StringToNumber env) (VNumber (Fin q)) = false) /\
   isNaN (StringToNumber env) (VNumber PInf) = false /\
   isNaN (StringToNumber env) (VNumber NInf) = false /\
   isNaN (StringToNumber env) VNull = false /\
   (forall b, isNaN (StringToNumber env) (VBool b) = false) /\
   (forall s, isNaN (StringToNumber env) (VString s) = true
              <-> StringToNumber env s = NaN) /\
   (forall s, isNaN (StringToNumber env) (VObject s) = true
              <-> StringToNumber env s = NaN)).
Proof.
  intros v message.
  assert (Hthrow : isNaN (StringToNumber env) v = true ->
                   blockHeights env st = mkRun (Throw message) st []).
  { intros Hnan. cbv [blockHeights bind get_conf throw]. fold v.
    rewrite Hnan. reflexivity. }
  assert (Hpass : isNaN (StringToNumber env) v = false ->
                  blockHeights env st
                  = mkRun (Ok (eth_getBlockNumber env (clock st), v)) (tick st)
                          [GetBlockNumber (eth_getBlockNumber env (clock st))]).
  { intros Hnan. cbv [blockHeights bind get_conf getBlockNumber ret]. fold v.
    rewrite Hnan. destruct (eth_getBlockNumber env (clock st)); reflexivity. }
  split; [|split; [|split]].
  - destruct (isNaN (StringToNumber env) v) eqn:Hnan.
    + rewrite (Hthrow eq_refl). split; [reflexivity|]. intros _. now exists message.
    + rewrite (Hpass eq_refl). split; [|discriminate].
      intros (m & H). discriminate.
  - intros Hnan. split; [now apply Hthrow|].
    unfold cycle, bind. rewrite (Hthrow Hnan). reflexivity.
  - intros Hnan. split; [now apply Hpass|]. split.
    + now apply cycle_never_throws_after_check.
    + now apply cycle_starts_with_the_query.
  - repeat split; try reflexivity; try (intros []; reflexivity);
      unfold isNaN; cbn [ToNumber]; destruct (StringToNumber env s);
      congruence.
Qed.

(** C4, refuted as stated: with the checkpoint at 100 and the chain head
    at 250 the range sync completes, and the last thing the turn does
    before the next one starts is to sleep for [sleepInterval] (5 s). *)
Lemma C4_turn_ends_with_a_sleep :
  let st := start (height 100) in
  let r := cycle (calm 250) 10 st in
  res (log (calm 250) 10 250 100 (tick st)) = Ok tt /\
  res r = Ok tt /\
  sleepInterval (conf st) = 5 /\
  last (emitted r) ReInit = TimeOut 5.
Proof. vm_compute. repeat split. Qed.

(** C4, as the code has it.  In a turn of the scheduler in which the chain
    head is above the checkpoint and the range sync completes, the turn
    consists of the height query, the actions of [log], and a sleep of
    [sleepInterval]; only then does the next turn start. *)
Theorem C4_sleep_after_catching_up env fuel st s latest :
  syncedBlockHeight (conf st) = height s ->
  eth_getBlockNumber env (clock st) = Some latest ->
  s < latest ->
  res (log env fuel latest s (tick st)) = Ok tt ->
  let r := cycle env fuel st in
  res r = Ok tt /\
  emitted r = GetBlockNumber (Some latest)
              :: emitted (log env fuel latest s (tick st))
              ++ [TimeOut (sleepInterval (conf st))].
Proof.
  intros Hs Ho Hlt Hlog.
  pose proof (log_orderly env fuel latest s (tick st)) as Hord.
  destruct Hord as (_ & _ & _ & _ & Hsleep & _).
  unfold tick in *. heights Hs Ho.
  destruct (Z.ltb_spec latest s) as [|_]; [lia|].
  destruct (Z.ltb_spec s latest) as [_|]; [|lia].
  cbv beta iota. cbn [conf disk web3 clock res final emitted app].
  destruct (log env fuel latest s _) as [[[]|c|m| |] st1 tr1];
    cbn [res] in Hlog; try discriminate.
  cbn [res final emitted conf] in *. rewrite Hsleep.
  split; [reflexivity|]. reflexivity.
Qed.

Lemma C4_scenario_A :
  let st := start (height 100) in
  syncedBlockHeight (conf st) = height 100 /\
  eth_getBlockNumber (calm 250) (clock st) = Some 250 /\
  100 < 250 /\
  res (log (calm 250) 10 250 100 (tick st)) = Ok tt /\
  res (cycle (calm 250) 10 st) = Ok tt /\
  emitted (cycle (calm 250) 10 st)
  = GetBlockNumber (Some 250)
    :: emitted (log (calm 250) 10 250 100 (tick st)) ++ [TimeOut 5].
Proof.
  intros st.
  assert (Hlog : res (log (calm 250) 10 250 100 (tick st)) = Ok tt)
    by (vm_compute; reflexivity).
  split; [reflexivity|]. split; [reflexivity|]. split; [lia|].
  split; [exact Hlog|].
  exact (C4_sleep_after_catching_up (calm 250) 10 st 100 250
           eq_refl eq_refl ltac:(lia) Hlog).
Defined.

(** C5.  In a turn of the scheduler in which the chain head is strictly
    below the checkpoint, the checkpoint of the conf is set to the chain
    head and written out; nothing is fetched; when the write succeeds the
    turn completes (after the sleep) with the chain head as the persisted
    checkpoint, and when it fails the process stops. *)
Theorem C5_checkpoint_clamped_down env fuel st s latest :
  syncedBlockHeight (conf st) = height s ->
  eth_getBlockNumber env (clock st) = Some latest ->
  latest < s ->
  let r := cycle env fuel st in
  let clamped := set_syncedBlockHeight (height latest) (conf st) in
  let ok := fs_writeFileSync env (S (clock st)) clamped in
  fetches (emitted r) = [] /\
  conf (final r) = clamped /\
  emitted r = GetBlockNumber (Some latest) :: WriteFile clamped ok
              :: (if ok then [TimeOut (sleepInterval (conf st))] else []) /\
  (ok = true ->
     res r = Ok tt /\ disk (final r) = Some clamped /\
     syncedBlockHeight clamped = height latest) /\
  (ok = false -> res r = Exit 0 /\ disk (final r) = disk st).
Proof.
  intros Hs Ho Hlt r clamped ok. subst r. heights Hs Ho.
  destruct (Z.ltb_spec latest s) as [_|]; [|lia].
  destruct (Z.ltb_spec s latest) as [|_]; [lia|].
  cbv beta iota. cbn [conf disk web3 clock res final emitted app].
  fold clamped. fold ok.
  destruct ok; cbv beta iota;
    cbn [conf disk web3 clock res final emitted app fetches flat_map fetch_of];
    repeat split; try reflexivity; discriminate.
Qed.

Lemma C5_stale_node :
  let st := start (height 100) in
  syncedBlockHeight (conf st) = height 100 /\
  eth_getBlockNumber (calm 50) (clock st) = Some 50 /\
  50 < 100 /\
  let r := cycle (calm 50) 10 st in
  fetches (emitted r) = [] /\
  res r = Ok tt /\
  disk (final r) = Some (mkConf (height 50) 5 100).
Proof.
  intros st. split; [reflexivity|]. split; [reflexivity|]. split; [lia|].
  destruct (C5_checkpoint_clamped_down (calm 50) 10 st 100 50
              eq_refl eq_refl ltac:(lia)) as (Hf & _ & _ & Hok & _).
  destruct (Hok eq_refl) as (Hr & Hd & _).
  split; [exact Hf|]. split; [exact Hr | exact Hd].
Defined.

(** C7.  In a turn of the scheduler in which the chain head equals the
    checkpoint, the only actions are the height query and one sleep of
    [sleepInterval]: nothing is fetched, nothing is written, the conf and
    the document on disk are left as they were, and the loop goes on. *)
Theorem C7_caught_up_turn_only_sleeps env fuel st s :
  syncedBlockHeight (conf st) = height s ->
  eth_getBlockNumber env (clock st) = Some s ->
  let r := cycle env fuel st in
  res r = Ok tt /\
  emitted r = [GetBlockNumber (Some s); TimeOut (sleepInterval (conf st))] /\
  fetches (emitted r) = [] /\
  checkpoints (emitted r) = [] /\
  existsb is_write (emitted r) = false /\
  conf (final r) = conf st /\
  disk (final r) = disk st.
Proof.
  intros Hs Ho r. subst r. heights Hs Ho.
  rewrite Z.ltb_irrefl. cbv beta iota.
  cbn [conf disk web3 clock res final emitted app].
  repeat split.
Qed.

Lemma C7_caught_up_at_250 :
  let st := start (height 250) in
  syncedBlockHeight (conf st) = height 250 /\
  eth_getBlockNumber (calm 250) (clock st) = Some 250 /\
  emitted (cycle (calm 250) 10 st) = [GetBlockNumber (Some 250); TimeOut 5].
Proof.
  intros st. split; [reflexivity|]. split; [reflexivity|].
  destruct (C7_caught_up_turn_only_sleeps (calm 250) 10 st 250 eq_refl eq_refl)
    as (_ & He & _).
  exact He.
Defined.



(* ================================================================== *)
(** ** One turn of the loop of log, unfolded *)
(* ================================================================== *)

Section Step.

Variable env : Env.

Lemma log_loop_step fuel L off count i from to st :
  num_ltb (of_Z i) count = true ->
  log_loop env (S fuel) L off count i from to st
  = match sync_subrange env from to st with
    | mkRun (Ok _) st1 tr1 =>
        let to' := if from + off + off >? L then L else from + off + off in
        let cf := set_syncedBlockHeight (height to') (conf st1) in
        if fs_writeFileSync env (clock st1) cf then
          match log_loop env fuel L off count (i + 1) (from + off) to'
                         (mkState cf (Some cf) (web3 st1) (S (clock st1))) with
          | mkRun r3 st3 tr3 => mkRun r3 st3 (tr1 ++ WriteFile cf true :: tr3)
          end
        else mkRun (Exit 0)
                   (mkState cf (disk st1) (web3 st1) (S (clock st1)))
                   (tr1 ++ [WriteFile cf false])
    | mkRun (Exit c) st1 tr1 => mkRun (Exit c) st1 tr1
    | mkRun (Throw m) st1 tr1 => mkRun (Throw m) st1 tr1
    | mkRun Unmodelled st1 tr1 => mkRun Unmodelled st1 tr1
    | mkRun OutOfFuel st1 tr1 => mkRun OutOfFuel st1 tr1
    end.
Proof.
  intros Htest. cbn [log_loop]. rewrite Htest. unfold bind at 1.
  destruct (sync_subrange env from to st) as [[[]|c|m| |] st1 tr1];
    try reflexivity.
  cbv [bind assign_syncedBlockHeight saveConf get_conf writeFileSync ret
       process_exit].
  cbn [conf disk web3 clock res final emitted app].
  destruct (fs_writeFileSync env (clock st1) _); [|reflexivity].
  destruct (log_loop env fuel L off count (i + 1) _ _ _) as [r3 st3 tr3].
  reflexivity.
Qed.

Lemma log_unfold fuel L s st :
  log env fuel L s st
  = match log_loop env fuel L (offset (conf st))
                   (iteration_count L s (offset (conf st))) 0 s
                   (first_to L s (offset (conf st))) st with
    | mkRun (Ok _) st1 tr1 => mkRun (Ok tt) st1 tr1
    | mkRun (Exit c) st1 tr1 => mkRun (Exit c) st1 tr1
    | mkRun (Throw m) st1 tr1 => mkRun (Throw m) st1 tr1
    | mkRun Unmodelled st1 tr1 => mkRun Unmodelled st1 tr1
    | mkRun OutOfFuel st1 tr1 => mkRun OutOfFuel st1 tr1
    end.
Proof.
  unfold log. rewrite bind_get_conf. unfold bind.
  destruct (log_loop env fuel L _ _ 0 s _ st) as [[x|c|m| |] st1 tr1];
    cbn [ret]; rewrite ?app_nil_r; reflexivity.
Qed.

End Step.

(* ================================================================== *)
(** ** When the loop of log is entered *)
(* ================================================================== *)

Lemma loop_entered L s off :
  num_ltb (of_Z 0) (iteration_count L s off)
  = ((0 <? off) && (s <? L)) || ((off <? 0) && (L <? s))
    || ((off =? 0) && (s <? L)).
Proof.
  destruct (Z.eqb_spec off 0) as [->|Hne].
  - unfold iteration_count, JS.div. cbn.
    destruct (Z.eqb_spec (L - s) 0).
    + cbn. symmetry. apply Z.ltb_ge. lia.
    + destruct (Z.ltb_spec 0 (L - s)); cbn; symmetry;
        [apply Z.ltb_lt|apply Z.ltb_ge]; lia.
  - rewrite orb_false_r.
    destruct (Z.ltb_spec 0 off) as [Hpos|Hneg].
    + replace (off <? 0) with false by (symmetry; apply Z.ltb_ge; lia).
      rewrite orb_false_r. cbn [andb].
      rewrite (loop_test L s off 0 Hpos ltac:(lia)).
      destruct (Z.ltb_spec (0 * off) (L - s)); symmetry;
        [apply Z.ltb_lt|apply Z.ltb_ge]; lia.
    + replace (off <? 0) with true by (symmetry; apply Z.ltb_lt; lia).
      cbn [andb orb].
      unfold iteration_count, JS.div.
      destruct (Z.eqb_spec off 0) as [|_]; [lia|].
      destruct (Z.ltb_spec 0 off) as [|_]; [lia|].
      unfold Math_max, of_Z, Qltb, num_ltb, inject_Z. cbn [Qnum Qden].
      rewrite Z2Pos.id by lia.
      destruct (Z.ltb_spec (0 * - off) (- (L - s) * 1));
        unfold Qltb; cbn [Qnum Qden]; rewrite ?Z2Pos.id by lia;
        destruct (Z.ltb_spec L s); try lia;
        try (apply Z.ltb_lt; lia); apply Z.ltb_ge; lia.
Qed.

Section Idle.

Variable env : Env.

Lemma log_not_entered fuel L s st :
  num_ltb (of_Z 0) (iteration_count L s (offset (conf st))) = false ->
  log env fuel L s st = mkRun (Ok tt) st [].
Proof.
  intros Htest. rewrite log_unfold.
  destruct fuel; cbn [log_loop]; rewrite Htest; reflexivity.
Qed.

End Idle.

(** X1.  Called with a positive offset and a bound that is not above the
    checkpoint, [log] does nothing at all: no fetch, no hand-over, no write,
    no pause; the state is left as it was. *)
Theorem log_without_gap_does_nothing env fuel st latest synced :
  0 < offset (conf st) -> latest <= synced ->
  log env fuel latest synced st = mkRun (Ok tt) st [].
Proof.
  intros Hoff Hle. apply log_not_entered. rewrite loop_entered.
  replace (0 <? offset (conf st)) with true by (symmetry; apply Z.ltb_lt; lia).
  replace (synced <? latest) with false by (symmetry; apply Z.ltb_ge; lia).
  replace (offset (conf st) <? 0) with false
    by (symmetry; apply Z.ltb_ge; lia).
  rewrite !andb_false_r. reflexivity.
Qed.

Lemma log_without_gap_example :
  0 < offset (conf (start (height 300))) /\ 250 <= 300 /\
  log scenarioC 0 250 300 (start (height 300))
  = mkRun (Ok tt) (start (height 300)) [].
Proof.
  split; [reflexivity|]. split; [discriminate|].
  exact (log_without_gap_does_nothing scenarioC 0 (start (height 300)) 250 300
           eq_refl ltac:(discriminate)).
Defined.

(** X2.  With a negative offset a turn of the scheduler that finds the
    chain head above the checkpoint fetches nothing and writes nothing: it
    is the height query followed by the sleep, and the conf and the document
    are left as they were, so the gap is never closed. *)
Theorem negative_offset_never_syncs env fuel st s latest :
  syncedBlockHeight (conf st) = height s ->
  eth_getBlockNumber env (clock st) = Some latest ->
  s < latest -> offset (conf st) < 0 ->
  cycle env fuel st
  = mkRun (Ok tt) (tick (tick st))
          (idle_trace latest (sleepInterval (conf st))).
Proof.
  intros Hs Ho Hlt Hoff.
  assert (Hlog : log env fuel latest s (tick st) = mkRun (Ok tt) (tick st) []).
  { apply log_not_entered. rewrite loop_entered. cbn [tick conf].
    replace (0 <? offset (conf st)) with false
      by (symmetry; apply Z.ltb_ge; lia).
    replace (latest <? s) with false by (symmetry; apply Z.ltb_ge; lia).
    replace (offset (conf st) =? 0) with false
      by (symmetry; apply Z.eqb_neq; lia).
    rewrite !andb_false_r. reflexivity. }
  unfold tick in *. heights Hs Ho.
  destruct (Z.ltb_spec latest s) as [|_]; [lia|].
  destruct (Z.ltb_spec s latest) as [_|]; [|lia].
  cbv beta iota. cbn [conf disk web3 clock res final emitted app].
  rewrite Hlog. reflexivity.
Qed.

Lemma negative_offset_example :
  let st := start_with (mkConf (height 100) 5 (-100)) in
  syncedBlockHeight (conf st) = height 100 /\
  eth_getBlockNumber (calm 250) (clock st) = Some 250 /\
  100 < 250 /\ offset (conf st) < 0 /\
  cycle (calm 250) 10 st = mkRun (Ok tt) (tick (tick st)) (idle_trace 250 5).
Proof.
  intros st. split; [reflexivity|]. split; [reflexivity|].
  split; [reflexivity|]. split; [reflexivity|].
  exact (negative_offset_never_syncs (calm 250) 10 st 100 250
           eq_refl eq_refl eq_refl eq_refl).
Defined.

(* ================================================================== *)
(** ** An offset of zero *)
(* ================================================================== *)

Lemma iteration_count_zero_offset L s : s < L -> iteration_count L s 0 = PInf.
Proof.
  intros Hlt. unfold iteration_count, JS.div. cbn.
  destruct (Z.eqb_spec (L - s) 0); [lia|].
  destruct (Z.ltb_spec 0 (L - s)); [reflexivity|lia].
Qed.

Section ZeroOffset.

Variable env : Env.
Variables L s : Z.
Hypothesis Hgap : s < L.

Lemma log_loop_zero_offset fuel : forall i from to st r,
  from = s -> to = s ->
  log_loop env fuel L 0 PInf i from to st = r ->
  (forall x, res r <> Ok x) /\
  (forall c f t, In (c, (f, t)) (fetches (emitted r)) -> f = s /\ t = s) /\
  (forall v, In v (checkpoints (emitted r)) -> v = height s) /\
  (dependable env ->
     res r = OutOfFuel /\
     List.length (fetches (emitted r)) = (3 * fuel)%nat).
Proof.
  induction fuel as [|fuel IH]; intros i from to st r -> -> Hr.
  - cbn in Hr. subst r. cbn. split; [|split; [|split]].
    + discriminate.
    + intros c f t [].
    + intros v [].
    + intros _. split; reflexivity.
  - rewrite log_loop_step in Hr by reflexivity.
    pose proof (sync_subrange_spec env s s st) as H1. cbv zeta in H1.
    destruct (sync_subrange env s s st) as [[[]|c|m| |] st1 tr1];
      cbn [res final emitted exited] in H1;
      destruct H1 as (Hc1 & Hd1 & Hw1 & Hp1 & Hf1 & Hk1 & He1 & Ho1 & Hdep1);
      try (destruct Ho1; discriminate).
    + specialize (Hf1 eq_refl).
      replace (if s + 0 + 0 >? L then L else s + 0 + 0) with s in Hr
        by (destruct (Z.gtb_spec (s + 0 + 0) L); lia).
      cbv zeta in Hr.
      destruct (fs_writeFileSync env (clock st1) _) eqn:Hok.
      * specialize (IH (i + 1) (s + 0) s
                       (mkState (set_syncedBlockHeight (height s) (conf st1))
                                (Some (set_syncedBlockHeight (height s) (conf st1)))
                                (web3 st1) (S (clock st1)))
                       _ ltac:(lia) eq_refl eq_refl).
        destruct (log_loop env fuel L 0 PInf (i + 1) (s + 0) s _)
          as [r3 st3 tr3].
        cbn [res emitted] in IH. destruct IH as (Hn3 & Hf3 & Hk3 & Hdep3).
        subst r. cbn [res emitted].
        rewrite fetches_app, checkpoints_app, Hf1, Hk1.
        cbn [fetches checkpoints flat_map fetch_of write_of app
             syncedBlockHeight set_syncedBlockHeight].
        split; [|split; [|split]].
        -- exact Hn3.
        -- intros c f t [E|[E|[E|H]]];
             try (injection E as _ <- <-; now split).
           now apply (Hf3 c f t).
        -- intros v [E|H]; [now symmetry|now apply Hk3].
        -- intros D. destruct (Hdep3 D) as (Hr3 & Hlen).
           split; [exact Hr3|].
           unfold fetches in *. cbn [per_contract app List.length]. lia.
      * subst r. cbn [res emitted].
        rewrite fetches_app, checkpoints_app, Hf1, Hk1.
        cbn [fetches checkpoints flat_map fetch_of write_of app].
        split; [|split; [|split]].
        -- discriminate.
        -- intros c f t [E|[E|[E|H]]];
             try (injection E as _ <- <-; now split).
           contradiction.
        -- intros v [].
        -- intros D. undependable.
    + destruct Ho1 as [|Ho1]; [discriminate|]. injection Ho1 as ->.
      subst r. cbn [res emitted]. rewrite Hk1.
      split; [|split; [|split]].
      * discriminate.
      * intros c0 f t H. apply (prefix_In _ _ _ Hp1) in H.
        destruct H as [E|[E|[E|[]]]]; injection E as _ <- <-; now split.
      * intros v [].
      * intros D. specialize (Hdep1 D). discriminate.
Qed.

End ZeroOffset.

(** X3.  With an offset of zero and the bound above the checkpoint, [log]
    never returns: whatever the fuel, the run is not a completed one.  It
    asks again and again for the range from the checkpoint to the checkpoint
    and writes the unchanged checkpoint; only a failing collaborator stops
    it.  When none fails, every unit of fuel is spent on one more turn of
    three fetches. *)
Theorem zero_offset_never_returns env fuel st latest synced :
  offset (conf st) = 0 -> synced < latest ->
  let r := log env fuel latest synced st in
  res r <> Ok tt /\
  (forall c f t, In (c, (f, t)) (fetches (emitted r)) ->
                 f = synced /\ t = synced) /\
  (forall v, In v (checkpoints (emitted r)) -> v = height synced) /\
  (dependable env ->
     res r = OutOfFuel /\
     List.length (fetches (emitted r)) = (3 * fuel)%nat).
Proof.
  intros Hoff Hgap r. subst r. rewrite log_unfold, Hoff.
  rewrite (iteration_count_zero_offset _ _ Hgap).
  assert (Hto : first_to latest synced 0 = synced).
  { unfold first_to. destruct (Z.gtb_spec (latest - synced) 0); lia. }
  pose proof (log_loop_zero_offset env latest synced Hgap fuel 0 synced
                (first_to latest synced 0) st _ eq_refl Hto eq_refl) as H.
  destruct (log_loop env fuel latest 0 PInf 0 synced _ st)
    as [[x|c|m| |] st1 tr1]; cbn [res emitted] in H |- *;
    destruct H as (Hn & Hf & Hk & Hdep);
    try (exfalso; exact (Hn x eq_refl)).
  all: split; [discriminate|]; split; [exact Hf|]; split; [exact Hk|].
  all: intros D; destruct (Hdep D) as (E & Hlen);
    split; [first [discriminate E | reflexivity]|exact Hlen].
Qed.

Lemma zero_offset_example :
  let st := start_with (mkConf (height 100) 5 0) in
  offset (conf st) = 0 /\ 100 < 250 /\
  res (log (calm 250) 4 250 100 st) = OutOfFuel /\
  List.length (fetches (emitted (log (calm 250) 4 250 100 st))) = 12%nat.
Proof.
  intros st. split; [reflexivity|]. split; [reflexivity|].
  destruct (zero_offset_never_returns (calm 250) 4 st 250 100
              eq_refl eq_refl) as (_ & _ & _ & Hdep).
  exact (Hdep (calm_dependable 250)).
Defined.

(* ================================================================== *)
(** ** The checkpoints log writes *)
(* ================================================================== *)

Lemma checkpoint_heights_length n from off L :
  List.length (checkpoint_heights n from off L) = n.
Proof.
  revert from. induction n as [|n IH]; intros from; cbn; [reflexivity|].
  now rewrite IH.
Qed.

Lemma checkpoint_heights_nth n off L : forall from k,
  (k < n)%nat ->
  nth k (checkpoint_heights n from off L) 0
  = Z.min (from + (Z.of_nat k + 2) * off) L.
Proof.
  induction n as [|n IH]; intros from k Hk; [lia|].
  destruct k as [|k]; cbn [checkpoint_heights nth].
  - f_equal. lia.
  - rewrite IH by lia. f_equal. lia.
Qed.

Lemma checkpoint_heights_bounds off L :
  0 < off ->
  forall n from z, n = remaining L off from ->
  In z (checkpoint_heights n from off L) -> from < z <= L.
Proof.
  intros Hoff. induction n as [|n IH]; intros from z Hn Hin; [contradiction|].
  assert (Hlt : from < L).
  { destruct (Z_lt_le_dec from L) as [|Hge]; [assumption|].
    rewrite (remaining_done _ _ _ Hoff Hge) in Hn. discriminate. }
  rewrite (remaining_step _ _ _ Hoff Hlt) in Hn. injection Hn as Hn.
  destruct Hin as [<-|Hin]; [lia|].
  specialize (IH (from + off) z Hn Hin). lia.
Qed.

Lemma checkpoint_heights_ascending off L :
  0 < off -> forall n from, ascending (checkpoint_heights n from off L).
Proof.
  intros Hoff. induction n as [|n IH]; intros from; [exact I|].
  cbn [checkpoint_heights]. specialize (IH (from + off)).
  destruct n as [|n]; [exact I|].
  cbn [checkpoint_heights ascending] in *. split; [lia|exact IH].
Qed.

Section Checkpoints.

Variable env : Env.
Variables L s off : Z.
Hypothesis Hoff : 0 < off.

Lemma log_loop_checkpoints fuel : forall i from st r,
  0 <= i -> from = s + i * off ->
  log_loop env fuel L off (iteration_count L s off) i from
           (Z.min (from + off) L) st = r ->
  let expected :=
    map height (checkpoint_heights (remaining L off from) from off L) in
  prefix (checkpoints (emitted r)) expected /\
  (forall x, res r = Ok x -> checkpoints (emitted r) = expected) /\
  (conf (final r) = conf st \/
   exists z, from < z <= L /\
             conf (final r) = set_syncedBlockHeight (height z) (conf st)).
Proof.
  induction fuel as [|fuel IH]; intros i from st r Hi Hfrom Hr;
    pose proof (loop_test L s off i Hoff Hi) as Htest;
    destruct (Z.ltb_spec (i * off) (L - s)) as [Hlt|Hge].
  - cbn [log_loop] in Hr. rewrite Htest in Hr. subst r. cbn.
    repeat split; auto using prefix_nil. discriminate.
  - cbn [log_loop] in Hr. rewrite Htest in Hr. subst r.
    rewrite (remaining_done L off from Hoff ltac:(lia)). cbn.
    repeat split; auto using prefix_nil.
  - rewrite (log_loop_step env fuel L off _ i from _ st Htest) in Hr.
    rewrite next_to in Hr. cbv zeta in Hr.
    rewrite (remaining_step L off from Hoff ltac:(lia)).
    cbn [checkpoint_heights map].
    pose proof (sync_subrange_spec env from (Z.min (from + off) L) st) as H1.
    cbv zeta in H1.
    destruct (sync_subrange env from (Z.min (from + off) L) st)
      as [[[]|c|m| |] st1 tr1];
      cbn [res final emitted exited] in H1;
      destruct H1 as (Hc1 & Hd1 & Hw1 & Hp1 & Hf1 & Hk1 & He1 & Ho1 & Hdep1);
      try (destruct Ho1; discriminate).
    + destruct (fs_writeFileSync env (clock st1) _).
      * specialize (IH (i + 1) (from + off)
                       (mkState (set_syncedBlockHeight
                                   (height (Z.min (from + off + off) L)) (conf st1))
                                (Some (set_syncedBlockHeight
                                         (height (Z.min (from + off + off) L))
                                         (conf st1)))
                                (web3 st1) (S (clock st1)))
                       _ ltac:(lia) ltac:(lia) eq_refl).
        destruct (log_loop env fuel L off _ (i + 1) (from + off) _ _)
          as [r3 st3 tr3].
        cbv zeta in IH. cbn [res final emitted conf] in IH.
        destruct IH as (Hp3 & He3 & Hc3).
        subst r. cbn [res final emitted].
        rewrite checkpoints_app, Hk1.
        cbn [checkpoints flat_map write_of app syncedBlockHeight
             set_syncedBlockHeight].
        split; [|split].
        -- destruct Hp3 as [rest E]. exists rest. unfold checkpoints in E.
           now rewrite E.
        -- intros x Hx. specialize (He3 x Hx). unfold checkpoints in He3.
           now rewrite He3.
        -- right. destruct Hc3 as [->|(z & Hz & ->)].
           ++ exists (Z.min (from + off + off) L). split; [lia|].
              now rewrite Hc1.
           ++ exists z. split; [lia|].
              unfold set_syncedBlockHeight. cbn. now rewrite Hc1.
      * subst r. cbn [res final emitted conf].
        rewrite checkpoints_app, Hk1. cbn.
        split; [apply prefix_nil|]. split; [discriminate|].
        right. exists (Z.min (from + off + off) L). split; [lia|].
        now rewrite Hc1.
    + destruct Ho1 as [|Ho1]; [discriminate|]. injection Ho1 as ->.
      subst r. cbn [res final emitted]. rewrite Hk1.
      split; [apply prefix_nil|]. split; [discriminate|]. now left.
  - cbn [log_loop] in Hr. rewrite Htest in Hr. subst r.
    rewrite (remaining_done L off from Hoff ltac:(lia)). cbn.
    repeat split; auto using prefix_nil.
Qed.

End Checkpoints.

Section CheckpointsOfLog.

Variable env : Env.

Lemma log_checkpoints fuel L s st :
  0 < offset (conf st) ->
  let r := log env fuel L s st in
  let expected :=
    map height (checkpoint_heights (remaining L (offset (conf st)) s) s
                                   (offset (conf st)) L) in
  prefix (checkpoints (emitted r)) expected /\
  (res r = Ok tt -> checkpoints (emitted r) = expected) /\
  (conf (final r) = conf st \/
   exists z, s < z <= L /\
             conf (final r) = set_syncedBlockHeight (height z) (conf st)).
Proof.
  intros Hoff r. subst r. rewrite log_unfold, first_to_min.
  pose proof (log_loop_checkpoints env L s (offset (conf st)) Hoff fuel 0 s st
                _ ltac:(lia) ltac:(lia) eq_refl) as H.
  cbv zeta in H.
  destruct (log_loop env fuel L _ _ 0 s _ st) as [[x|c|m| |] st1 tr1];
    cbn [res final emitted] in H |- *;
    destruct H as (Hp & He & Hc); (split; [exact Hp|]);
    (split; [|exact Hc]); try discriminate.
  intros _. exact (He x eq_refl).
Qed.

End CheckpointsOfLog.

(** With heights added exactly: for a positive offset, the checkpoints a
    call of [log] puts on disk are, in order, [min(synced + (k + 2) * offset, latest)] for
    [k = 0, 1, ...]: one per sub-range, each the end of the sub-range after
    the one just processed (or [latest]), never decreasing.  A run that is
    stopped has written a prefix of them, a run that completes has written
    all [ceil((latest - synced) / offset)] of them. *)
Lemma ideal_checkpoint_sequence env fuel st latest synced :
  0 < offset (conf st) ->
  let off := offset (conf st) in
  let n := Z.to_nat (ceil_div (latest - synced) off) in
  let heights := checkpoint_heights n synced off latest in
  let r := log env fuel latest synced st in
  prefix (checkpoints (emitted r)) (map height heights) /\
  (res r = Ok tt -> checkpoints (emitted r) = map height heights) /\
  List.length heights = n /\
  (forall k, (k < n)%nat ->
     nth k heights 0 = Z.min (synced + (Z.of_nat k + 2) * off) latest) /\
  ascending heights.
Proof.
  intros Hoff off n heights r.
  destruct (log_checkpoints env fuel latest synced st Hoff) as (Hp & He & _).
  split; [exact Hp|]. split; [exact He|].
  split; [apply checkpoint_heights_length|].
  split; [intros k Hk; now apply checkpoint_heights_nth|].
  now apply checkpoint_heights_ascending.
Qed.

(** With heights added exactly: for a positive offset, whatever happens
    during a call of [log],
    every checkpoint it puts on disk is an integer height strictly above
    the checkpoint it started from and not above the bound [latest], and so
    is the checkpoint it leaves in the conf when it has changed it. *)
Lemma ideal_checkpoints_within_the_gap env fuel st latest synced :
  0 < offset (conf st) ->
  let r := log env fuel latest synced st in
  (forall v, In v (checkpoints (emitted r)) ->
     exists z, v = height z /\ synced < z <= latest) /\
  (conf (final r) = conf st \/
   exists z, synced < z <= latest /\
             conf (final r) = set_syncedBlockHeight (height z) (conf st)).
Proof.
  intros Hoff r.
  destruct (log_checkpoints env fuel latest synced st Hoff) as (Hp & _ & Hc).
  split; [|exact Hc].
  intros v Hin. apply (prefix_In _ _ _ Hp) in Hin.
  apply in_map_iff in Hin. destruct Hin as (z & <- & Hz).
  exists z. split; [reflexivity|].
  eapply checkpoint_heights_bounds; [exact Hoff|reflexivity|exact Hz].
Qed.

(* ================================================================== *)
(** ** More about one sub-range *)
(* ================================================================== *)

Lemma stopped_by_app seconds tr1 tr2 :
  stopped_by seconds tr2 -> stopped_by seconds (tr1 ++ tr2).
Proof.
  intros (before & [(c & f & t & ->)|[(n & ev & w & d & ->)|(cf & ->)]]);
    exists (tr1 ++ before).
  - left. exists c, f, t. now rewrite app_assoc.
  - right; left. exists n, ev, w, d. now rewrite app_assoc.
  - right; right. exists cf. now rewrite app_assoc.
Qed.

(** X6.  A sub-range that is processed to its end consists of exactly
    this: the private sale is fetched and, when its batch is not empty,
    handed over; a pause of one second; the same for the chain guardian; a
    pause of one second; the same for the trust pad.  The events of a
    contract are handed over before the next contract is fetched, and there
    is no pause after the last contract. *)
Theorem completed_subrange_trace env from to st :
  res (sync_subrange env from to st) = Ok tt ->
  exists b1 b2 b3,
    emitted (sync_subrange env from to st)
    = handed_over env privateSale from to (web3 st) b1
      ++ TimeOut 1
      :: handed_over env chainGuardian from to (web3 st) b2
      ++ TimeOut 1
      :: handed_over env trustPad from to (web3 st) b3.
Proof.
  cbv [sync_subrange fetchEvents logEvents getPastEvents logSync timeOut
       get_conf get_web3 process_exit bind ret]. cbn.
  repeat env_case.
  all: intros Hres; try discriminate Hres.
  all: match goal with
       | |- exists b1 b2 b3, ?l = _ =>
           match l with
           | context [GetPastEvents privateSale _ _ (Some ?x1)] =>
               match l with
               | context [GetPastEvents chainGuardian _ _ (Some ?x2)] =>
                   match l with
                   | context [GetPastEvents trustPad _ _ (Some ?x3)] =>
                       exists x1, x2, x3
                   end
               end
           end
       end; reflexivity.
Qed.

Lemma completed_subrange_example :
  let st := start (height 100) in
  res (sync_subrange (calm 250) 100 200 st) = Ok tt /\
  exists b1 b2 b3,
    emitted (sync_subrange (calm 250) 100 200 st)
    = handed_over (calm 250) privateSale 100 200 (web3 st) b1
      ++ TimeOut 1
      :: handed_over (calm 250) chainGuardian 100 200 (web3 st) b2
      ++ TimeOut 1
      :: handed_over (calm 250) trustPad 100 200 (web3 st) b3.
Proof.
  intros st. split; [reflexivity|].
  exact (completed_subrange_trace (calm 250) 100 200 st eq_refl).
Defined.

Section SubRangeMore.

Variable env : Env.

Lemma sync_subrange_more from to st :
  let r := sync_subrange env from to st in
  forallb (log_action (web3 st)) (emitted r) = true /\
  existsb write_failed (emitted r) = false /\
  (forall code, res r = Exit code ->
     stopped_by (sleepInterval (conf st)) (emitted r)) /\
  (forall seconds off, forallb (writes_keep seconds off) (emitted r) = true).
Proof.
  cbv [sync_subrange fetchEvents logEvents getPastEvents logSync timeOut
       get_conf get_web3 process_exit bind ret]. cbn.
  repeat env_case.
  all: rewrite ?Nat.eqb_refl; cbn [andb].
  all: split; [reflexivity|]; split; [reflexivity|].
  all: split; [|reflexivity].
  all: intros code Hres; try discriminate Hres.
  all: unfold stopped_by.
  all: match goal with
       | |- exists before, (exists c f t, ?l = _) \/ _ =>
           match l with
           | context [GetPastEvents ?c ?f ?t None] =>
               exists (removelast (removelast l)); left; exists c, f, t;
               reflexivity
           | context [LogSync ?n ?ev ?w ?d false] =>
               exists (removelast l); right; left; exists n, ev, w, d;
               reflexivity
           end
       end.
Qed.

End SubRangeMore.

(* ================================================================== *)
(** ** How log conducts itself *)
(* ================================================================== *)

Section Conduct.

Variable env : Env.

Lemma log_loop_conduct L off count fuel : forall i from to st r,
  log_loop env fuel L off count i from to st = r ->
  forallb (log_action (web3 st)) (emitted r) = true /\
  (forall code, res r = Exit code ->
     stopped_by (sleepInterval (conf st)) (emitted r)) /\
  (in_sync st -> existsb write_failed (emitted r) = false ->
   in_sync (final r)) /\
  forallb (writes_keep (sleepInterval (conf st)) (offset (conf st)))
          (emitted r) = true.
Proof.
  induction fuel as [|fuel IH]; intros i from to st r Hr;
    destruct (num_ltb (of_Z i) count) eqn:Htest.
  - cbn [log_loop] in Hr. rewrite Htest in Hr. subst r. cbn.
    repeat split; auto; discriminate.
  - cbn [log_loop] in Hr. rewrite Htest in Hr. subst r. cbn.
    repeat split; auto; discriminate.
  - rewrite (log_loop_step env fuel L off count i from to st Htest) in Hr.
    cbv zeta in Hr.
    pose proof (sync_subrange_spec env from to st) as H1.
    pose proof (sync_subrange_more env from to st) as H2.
    cbv zeta in H1, H2.
    destruct (sync_subrange env from to st) as [[[]|c|m| |] st1 tr1];
      cbn [res final emitted exited] in H1, H2;
      destruct H1 as (Hc1 & Hd1 & Hw1 & _ & _ & _ & _ & Ho1 & _);
      destruct H2 as (Ha1 & Hn1 & Hs1 & Hk1);
      try (destruct Ho1; discriminate).
    + destruct (fs_writeFileSync env (clock st1) _).
      * match type of Hr with
        | match log_loop env fuel L off count ?i' ?f' ?t' ?st' with _ => _ end = _ =>
            specialize (IH i' f' t' st' _ eq_refl);
            destruct (log_loop env fuel L off count i' f' t' st')
              as [r3 st3 tr3]
        end.
        cbn [res final emitted conf web3 set_syncedBlockHeight sleepInterval
             offset] in IH.
        destruct IH as (Ha3 & Hs3 & Hi3 & Hk3).
        subst r. cbn [res final emitted].
        rewrite !forallb_app, existsb_app, Ha1, Hn1, Hk1.
        cbn [forallb existsb log_action write_failed writes_keep andb orb
             set_syncedBlockHeight sleepInterval offset].
        rewrite Hw1 in Ha3. rewrite Hc1 in Hs3, Hk3. rewrite Hc1.
        rewrite !Z.eqb_refl. cbn [andb].
        split; [exact Ha3|]. split; [|split].
        -- intros code Hcode. apply stopped_by_app.
           apply (stopped_by_app _ [_]). exact (Hs3 code Hcode).
        -- intros _ Hnf. apply Hi3; [reflexivity|exact Hnf].
        -- exact Hk3.
      * subst r. cbn [res final emitted].
        rewrite !forallb_app, existsb_app, Ha1, Hn1, Hk1.
        cbn [forallb existsb log_action write_failed writes_keep andb orb
             set_syncedBlockHeight sleepInterval offset].
        rewrite Hc1, !Z.eqb_refl.
        split; [reflexivity|]. split; [|split; [discriminate|reflexivity]].
        intros code _. apply stopped_by_app. exists [].
        right; right. eexists. reflexivity.
    + subst r. cbn [res final emitted].
      split; [exact Ha1|]. split; [intros code _; exact (Hs1 c eq_refl)|].
      split; [|apply Hk1].
      intros Hin _. unfold in_sync in *. now rewrite Hd1, Hc1.
  - cbn [log_loop] in Hr. rewrite Htest in Hr. subst r. cbn.
    repeat split; auto; discriminate.
Qed.

Lemma log_conduct fuel L s st :
  let r := log env fuel L s st in
  forallb (log_action (web3 st)) (emitted r) = true /\
  (forall code, res r = Exit code ->
     stopped_by (sleepInterval (conf st)) (emitted r)) /\
  (in_sync st -> existsb write_failed (emitted r) = false ->
   in_sync (final r)) /\
  forallb (writes_keep (sleepInterval (conf st)) (offset (conf st)))
          (emitted r) = true.
Proof.
  intros r. subst r. rewrite log_unfold.
  pose proof (log_loop_conduct L (offset (conf st))
                (iteration_count L s (offset (conf st))) fuel 0 s
                (first_to L s (offset (conf st))) st _ eq_refl) as H.
  destruct (log_loop env fuel L _ _ 0 s _ st) as [[x|c|m| |] st1 tr1];
    cbn [res final emitted] in H |- *;
    destruct H as (Ha & Hs & Hi & Hk); (split; [exact Ha|]);
    (split; [|split; [exact Hi|exact Hk]]); try discriminate.
  intros code Hcode. injection Hcode as <-. exact (Hs c eq_refl).
Qed.

End Conduct.

(** X7.  When a call of [log] stops the process, the last thing it did is
    one of three: a fetch that failed followed by a sleep of
    [sleepInterval]; a hand-over that failed; a checkpoint write that
    failed.  After a failed hand-over or write there is no sleep. *)
Theorem log_stops_right_after_the_failure env fuel st latest synced code :
  res (log env fuel latest synced st) = Exit code ->
  stopped_by (sleepInterval (conf st)) (emitted (log env fuel latest synced st)).
Proof.
  intros Hres.
  destruct (log_conduct env fuel latest synced st) as (_ & Hs & _).
  exact (Hs code Hres).
Qed.

Lemma log_stops_in_scenario_C :
  res (log scenarioC 10 250 100 (start (height 100))) = Exit 0 /\
  stopped_by 5 (emitted (log scenarioC 10 250 100 (start (height 100)))).
Proof.
  split; [reflexivity|].
  exact (log_stops_right_after_the_failure scenarioC 10 (start (height 100))
           250 100 0 eq_refl).
Defined.

(** X8.  During a call of [log] the height of the chain is never queried
    again and the chain client is never reinitialised; every hand-over is
    made with the client that was in use when [log] was called. *)
Theorem log_keeps_its_bound_and_client env fuel st latest synced a :
  In a (emitted (log env fuel latest synced st)) ->
  is_query a = false /\ is_reinit a = false /\
  (forall n ev w d ok, a = LogSync n ev w d ok -> w = web3 st).
Proof.
  intros Hin.
  destruct (log_conduct env fuel latest synced st) as (Ha & _).
  rewrite forallb_forall in Ha. specialize (Ha a Hin).
  destruct a; cbn in Ha |- *; try discriminate;
    repeat split; try reflexivity; try discriminate.
  intros n ev w' d ok' E. injection E as _ _ <- _ _.
  now apply Nat.eqb_eq.
Qed.

Lemma log_client_example :
  In (LogSync "private-sale" [7] 0%nat (VString "10") true)
     (emitted (log (calm 250) 10 250 100 (start (height 100)))) /\
  0%nat = web3 (start (height 100)).
Proof.
  assert (Hin : In (LogSync "private-sale" [7] 0%nat (VString "10") true)
                   (emitted (log (calm 250) 10 250 100 (start (height 100)))))
    by (vm_compute; right; left; reflexivity).
  split; [exact Hin|].
  destruct (log_keeps_its_bound_and_client (calm 250) 10 (start (height 100))
              250 100 _ Hin) as (_ & _ & Hw).
  exact (Hw _ _ _ _ _ eq_refl).
Defined.

(** X9.  If the document on disk is the conf in memory when [log] is
    called, it still is when [log] is left, however it is left, unless a
    checkpoint write has failed. *)
Theorem log_keeps_disk_and_memory_together env fuel st latest synced :
  in_sync st ->
  existsb write_failed (emitted (log env fuel latest synced st)) = false ->
  in_sync (final (log env fuel latest synced st)).
Proof.
  intros Hin Hnf.
  destruct (log_conduct env fuel latest synced st) as (_ & _ & Hi & _).
  now apply Hi.
Qed.

Lemma log_in_sync_in_scenario_C :
  in_sync (start (height 100)) /\
  existsb write_failed
    (emitted (log scenarioC 10 250 100 (start (height 100)))) = false /\
  in_sync (final (log scenarioC 10 250 100 (start (height 100)))).
Proof.
  split; [reflexivity|]. split; [reflexivity|].
  exact (log_keeps_disk_and_memory_together scenarioC 10 (start (height 100))
           250 100 eq_refl eq_refl).
Defined.

(** X10.  Every document [log] writes, or tries to write, carries the
    [sleepInterval] and the [offset] of the conf it was called with: the
    sync changes the checkpoint of the document and nothing else. *)
Theorem log_writes_leave_the_parameters_alone env fuel st latest synced cf ok :
  In (WriteFile cf ok) (emitted (log env fuel latest synced st)) ->
  sleepInterval cf = sleepInterval (conf st) /\ offset cf = offset (conf st).
Proof.
  intros Hin.
  destruct (log_conduct env fuel latest synced st) as (_ & _ & _ & Hk).
  rewrite forallb_forall in Hk. specialize (Hk _ Hin). cbn in Hk.
  apply andb_true_iff in Hk. destruct Hk as (H1 & H2).
  split; now apply Z.eqb_eq.
Qed.

Lemma log_write_example :
  In (WriteFile (mkConf (height 250) 5 100) true)
     (emitted (log (calm 250) 10 250 100 (start (height 100)))) /\
  5 = sleepInterval (conf (start (height 100))) /\
  100 = offset (conf (start (height 100))).
Proof.
  assert (Hin : In (WriteFile (mkConf (height 250) 5 100) true)
                   (emitted (log (calm 250) 10 250 100 (start (height 100)))))
    by (vm_compute; do 6 right; left; reflexivity).
  split; [exact Hin|].
  exact (log_writes_leave_the_parameters_alone (calm 250) 10
           (start (height 100)) 250 100 _ _ Hin).
Defined.

(* ================================================================== *)
(** ** SyncByUpdate and its turns *)
(* ================================================================== *)

Lemma keeps_sync_bind {A B} (m : M A) (f : A -> M B) st :
  keeps_sync st (m st) ->
  (forall a, res (m st) = Ok a -> keeps_sync (final (m st)) (f a (final (m st)))) ->
  keeps_sync st (bind m f st).
Proof.
  unfold bind, keeps_sync.
  destruct (m st) as [[a|c|msg| |] st1 tr1]; cbn [res final emitted];
    intros H1 H2 Hin (b & Hb); try discriminate.
  specialize (H2 a eq_refl). destruct (f a st1) as [r2 st2 tr2].
  cbn [res final emitted] in *. apply H2; eauto.
Qed.

Lemma forallb_bind {A B} (p : action -> bool) (m : M A) (f : A -> M B) st :
  forallb p (emitted (m st)) = true ->
  (forall a, res (m st) = Ok a ->
     forallb p (emitted (f a (final (m st)))) = true) ->
  forallb p (emitted (bind m f st)) = true.
Proof.
  unfold bind.
  destruct (m st) as [[a|c|msg| |] st1 tr1]; cbn [res final emitted];
    intros H1 H2; try exact H1.
  specialize (H2 a eq_refl). destruct (f a st1) as [r2 st2 tr2].
  cbn [emitted] in *. rewrite forallb_app, H1, H2. reflexivity.
Qed.

Lemma no_failure_no_failed_write tr :
  existsb failed tr = false -> existsb write_failed tr = false.
Proof.
  induction tr as [|a tr IH]; [reflexivity|]. cbn [existsb].
  intros H. apply orb_false_iff in H. destruct H as (Ha & Htr).
  rewrite (IH Htr), orb_false_r.
  destruct a as [| | | | |cf ok]; try reflexivity.
  destruct ok; [reflexivity|discriminate].
Qed.

Lemma log_action_quiet w tr :
  forallb (log_action w) tr = true -> forallb quiet tr = true.
Proof.
  induction tr as [|a tr IH]; [reflexivity|]. cbn [forallb].
  intros H. apply andb_true_iff in H. destruct H as (Ha & Htr).
  rewrite (IH Htr), andb_true_r. destruct a; try reflexivity; discriminate.
Qed.

Section Turns.

Variable env : Env.

Lemma blockHeights_run st :
  isNaN (StringToNumber env) (syncedBlockHeight (conf st)) = false ->
  blockHeights env st
  = mkRun (Ok (eth_getBlockNumber env (clock st), syncedBlockHeight (conf st)))
          (tick st) [GetBlockNumber (eth_getBlockNumber env (clock st))].
Proof.
  intros Hnan. cbv [blockHeights bind get_conf getBlockNumber ret].
  rewrite Hnan. destruct (eth_getBlockNumber env (clock st)); reflexivity.
Qed.

Lemma log_keeps_sync fuel L s st : keeps_sync st (log env fuel L s st).
Proof.
  intros Hin (a & Ha).
  destruct (log_conduct env fuel L s st) as (_ & _ & Hi & _).
  apply Hi; [exact Hin|]. apply no_failure_no_failed_write.
  destruct (log_orderly env fuel L s st) as (He & _).
  rewrite He. unfold exited. now rewrite Ha.
Qed.

Lemma cycle_keeps_sync fuel st : keeps_sync st (cycle env fuel st).
Proof.
  unfold cycle. apply keeps_sync_bind.
  - unfold blockHeights. apply keeps_sync_bind; [intros H _; exact H|].
    intros cf _. destruct (isNaN _ _).
    + intros _ (a & Ha). discriminate.
    + apply keeps_sync_bind; [intros H _; exact H|].
      intros [latest|] _; intros H _; exact H.
  - intros [[latest|] v] _; generalize (final (blockHeights env st));
      intros st1.
    + apply keeps_sync_bind.
      { destruct (num_ltb _ _); [|intros H _; exact H].
        intros _ (a & Ha). revert Ha.
        cbv [bind assign_syncedBlockHeight saveConf get_conf writeFileSync
             ret process_exit].
        cbn [conf disk web3 clock res final emitted].
        destruct (fs_writeFileSync env _ _); cbn [res final];
          [intros _; reflexivity|discriminate]. }
      intros _ _.
      match goal with |- keeps_sync ?s _ => generalize s; intros st2 end.
      apply keeps_sync_bind.
      { destruct (num_ltb _ _); [|intros H _; exact H].
        destruct (as_integer v).
        - apply log_keeps_sync.
        - intros _ (a & Ha). discriminate. }
      intros _ _.
      match goal with |- keeps_sync ?s _ => generalize s; intros st3 end.
      apply keeps_sync_bind; [intros H _; exact H|].
      intros cf _. intros H _. exact H.
    + apply keeps_sync_bind; [intros H _; exact H|].
      intros _ _. apply keeps_sync_bind; [intros H _; exact H|].
      intros cf _. intros H _. exact H.
Qed.

Lemma cycles_keeps_sync fuel n : forall st, keeps_sync st (cycles env fuel n st).
Proof.
  induction n as [|n IH]; intros st; cbn [cycles].
  - intros H _. exact H.
  - apply keeps_sync_bind; [apply cycle_keeps_sync|]. intros _ _. apply IH.
Qed.

Lemma SyncByUpdate_loaded fuel n st c :
  disk st = Some c ->
  SyncByUpdate env fuel n st
  = cycles env fuel n (mkState c (Some c) (web3 st) (clock st)).
Proof.
  intros Hd. cbv [SyncByUpdate bind loadConf set_conf]. rewrite Hd.
  cbn [conf disk web3 clock res final emitted]. rewrite ?Hd.
  destruct (cycles env fuel n _) as [[[]|code|m| |] st1 tr1]; reflexivity.
Qed.

Lemma cycle_idle fuel st s :
  syncedBlockHeight (conf st) = height s ->
  eth_getBlockNumber env (clock st) = Some s ->
  cycle env fuel st
  = mkRun (Ok tt) (tick (tick st)) (idle_trace s (sleepInterval (conf st))).
Proof.
  intros Hs Ho. heights Hs Ho. rewrite Z.ltb_irrefl. reflexivity.
Qed.

Lemma cycle_after_query fuel st :
  isNaN (StringToNumber env) (syncedBlockHeight (conf st)) = false ->
  exists rest,
    emitted (cycle env fuel st)
    = GetBlockNumber (eth_getBlockNumber env (clock st)) :: rest /\
    match eth_getBlockNumber env (clock st) with
    | None => rest = [ReInit; TimeOut (sleepInterval (conf st))]
    | Some _ => forallb quiet rest = true
    end.
Proof.
  intros Hnan. unfold cycle, bind at 1. rewrite (blockHeights_run st Hnan).
  destruct (eth_getBlockNumber env (clock st)) as [latest|].
  - match goal with |- context [match ?X with mkRun _ _ _ => _ end] =>
      assert (Hq : forallb quiet (emitted X) = true); [|destruct X as [r2 st2 tr2]]
    end.
    { generalize (tick st); intros st1. apply forallb_bind.
      { destruct (num_ltb _ _); [|reflexivity].
        cbv [bind assign_syncedBlockHeight saveConf get_conf writeFileSync
             ret process_exit].
        cbn [conf disk web3 clock res final emitted].
        destruct (fs_writeFileSync env _ _); reflexivity. }
      intros _ _.
      match goal with |- forallb _ (emitted (_ ?s)) = _ =>
        generalize s; intros st2 end.
      apply forallb_bind.
      { destruct (num_ltb _ _); [|reflexivity].
        destruct (as_integer _); [|reflexivity].
        eapply log_action_quiet. apply log_conduct. }
      intros _ _.
      match goal with |- forallb _ (emitted (_ ?s)) = _ =>
        generalize s; intros st3 end.
      apply forallb_bind; [reflexivity|].
      intros cf _. reflexivity. }
    cbn [emitted app] in *. eauto.
  - cbv [bind reInit get_conf timeOut tick].
    cbn [conf disk web3 clock res final emitted app]. eauto.
Qed.

End Turns.

(** X12.  As long as [SyncByUpdate] keeps going, the document on disk is
    the conf in memory at the end of every turn: a restart would read back
    exactly the checkpoint the running process holds. *)
Theorem scheduler_keeps_disk_and_memory_together env fuel n st :
  res (SyncByUpdate env fuel n st) = Ok tt ->
  in_sync (final (SyncByUpdate env fuel n st)).
Proof.
  intros Hres. destruct (disk st) as [c|] eqn:Hd.
  - rewrite (SyncByUpdate_loaded env fuel n st c Hd) in *.
    apply cycles_keeps_sync; [reflexivity|eauto].
  - revert Hres. cbv [SyncByUpdate bind loadConf]. rewrite Hd. discriminate.
Qed.

Lemma scheduler_in_sync_example :
  res (SyncByUpdate (calm 250) 10 3 (start (height 100))) = Ok tt /\
  in_sync (final (SyncByUpdate (calm 250) 10 3 (start (height 100)))).
Proof.
  split; [reflexivity|].
  exact (scheduler_keeps_disk_and_memory_together (calm 250) 10 3
           (start (height 100)) eq_refl).
Defined.

(** X13.  A turn of the scheduler that starts with an integer checkpoint
    queries the height of the chain exactly once, as its first action, and
    reinitialises the chain client if and only if that query failed. *)
Theorem turn_queries_once_and_reinits_on_failure env fuel st s :
  syncedBlockHeight (conf st) = height s ->
  exists rest,
    emitted (cycle env fuel st)
    = GetBlockNumber (eth_getBlockNumber env (clock st)) :: rest /\
    existsb is_query rest = false /\
    (existsb is_reinit rest = true <-> eth_getBlockNumber env (clock st) = None).
Proof.
  intros Hs.
  assert (Hnan : isNaN (StringToNumber env) (syncedBlockHeight (conf st)) = false)
    by (rewrite Hs; reflexivity).
  destruct (cycle_after_query env fuel st Hnan) as (rest & E & Hrest).
  exists rest. split; [exact E|].
  destruct (eth_getBlockNumber env (clock st)) as [latest|].
  - assert (Hq : existsb is_query rest = false /\ existsb is_reinit rest = false).
    { clear E. induction rest as [|a rest IH]; [now split|].
      cbn [forallb] in Hrest. apply andb_true_iff in Hrest.
      destruct Hrest as (Ha & Hr). destruct (IH Hr) as (H1 & H2).
      cbn [existsb]. rewrite H1, H2.
      unfold quiet in Ha. apply andb_true_iff in Ha. destruct Ha as (Hx & Hy).
      apply negb_true_iff in Hx, Hy. rewrite Hx, Hy. now split. }
    destruct Hq as (H1 & H2). split; [exact H1|].
    rewrite H2. split; discriminate.
  - subst rest. split; [reflexivity|]. split; reflexivity.
Qed.

Lemma turn_query_example :
  let st := start (height 100) in
  syncedBlockHeight (conf st) = height 100 /\
  exists rest,
    emitted (cycle (outage 1 300) 10 st)
    = GetBlockNumber (eth_getBlockNumber (outage 1 300) (clock st)) :: rest /\
    existsb is_query rest = false /\
    (existsb is_reinit rest = true
     <-> eth_getBlockNumber (outage 1 300) (clock st) = None).
Proof.
  intros st. split; [reflexivity|].
  exact (turn_queries_once_and_reinits_on_failure (outage 1 300) 10 st 100
           eq_refl).
Defined.

(** X14.  Once the checkpoint has reached the chain head, and for as long
    as the height query keeps answering that height, the turns of the
    scheduler are nothing but the query and the sleep of [sleepInterval]:
    whatever their number, nothing is fetched, nothing is written, the
    client is not reinitialised, and the conf and the document stay as they
    were. *)
Theorem caught_up_scheduler_only_polls env fuel n : forall st s,
  syncedBlockHeight (conf st) = height s ->
  (forall k, (k < n)%nat -> eth_getBlockNumber env (clock st + 2 * k) = Some s) ->
  let r := cycles env fuel n st in
  res r = Ok tt /\
  emitted r = List.concat (repeat (idle_trace s (sleepInterval (conf st))) n) /\
  conf (final r) = conf st /\
  disk (final r) = disk st /\
  web3 (final r) = web3 st /\
  clock (final r) = (clock st + 2 * n)%nat.
Proof.
  induction n as [|n IH]; intros st s Hs Hhead.
  - cbn. repeat split. lia.
  - assert (H0 : eth_getBlockNumber env (clock st) = Some s).
    { specialize (Hhead O ltac:(lia)).
      now replace (clock st + 2 * 0)%nat with (clock st) in Hhead by lia. }
    cbn [cycles]. unfold bind. rewrite (cycle_idle env fuel st s Hs H0).
    specialize (IH (tick (tick st)) s).
    cbn [tick conf disk web3 clock] in IH. specialize (IH Hs).
    assert (Hhead' : forall k, (k < n)%nat ->
              eth_getBlockNumber env (S (S (clock st)) + 2 * k) = Some s).
    { intros k Hk. specialize (Hhead (S k) ltac:(lia)).
      now replace (clock st + 2 * S k)%nat with (S (S (clock st)) + 2 * k)%nat
        in Hhead by lia. }
    specialize (IH Hhead'). cbv zeta in IH. unfold tick.
    cbn [conf disk web3 clock].
    destruct (cycles env fuel n _) as [r2 st2 tr2].
    cbn [res final emitted] in IH |- *.
    destruct IH as (Hr & He & Hc & Hd & Hw & Hcl).
    subst tr2. repeat split; try assumption. lia.
Qed.

Lemma caught_up_example :
  let st := start (height 250) in
  syncedBlockHeight (conf st) = height 250 /\
  (forall k, (k < 3)%nat ->
     eth_getBlockNumber (calm 250) (clock st + 2 * k) = Some 250) /\
  emitted (cycles (calm 250) 10 3 st)
  = [GetBlockNumber (Some 250); TimeOut 5;
     GetBlockNumber (Some 250); TimeOut 5;
     GetBlockNumber (Some 250); TimeOut 5].
Proof.
  intros st. split; [reflexivity|].
  assert (Hhead : forall k, (k < 3)%nat ->
            eth_getBlockNumber (calm 250) (clock st + 2 * k) = Some 250)
    by (intros k _; reflexivity).
  split; [exact Hhead|].
  destruct (caught_up_scheduler_only_polls (calm 250) 10 3 st 250 eq_refl Hhead)
    as (_ & He & _).
  exact He.
Defined.

(** With heights added exactly.  Take a turn of the scheduler that starts
    with an integer
    checkpoint, a positive offset and an answer [latest] to the height
    query.  However the turn ends, the checkpoint it leaves in the conf is
    an integer height that is not above [latest], and not below the old
    checkpoint unless the chain head was below it; when the turn completes
    that checkpoint is exactly [latest]. *)
Lemma ideal_turn_checkpoint env fuel st s latest :
  syncedBlockHeight (conf st) = height s ->
  eth_getBlockNumber env (clock st) = Some latest ->
  0 < offset (conf st) ->
  let r := cycle env fuel st in
  exists z,
    syncedBlockHeight (conf (final r)) = height z /\
    z <= latest /\
    (s <= latest -> s <= z) /\
    (res r = Ok tt -> z = latest).
Proof.
  intros Hs Ho Hoff r. subst r.
  destruct (Z.lt_trichotomy s latest) as [Hlt|[Heq|Hgt]].
  - pose proof (log_checkpoints env fuel latest s (tick st) Hoff) as Hcp.
    pose proof (log_spec env fuel latest s (tick st) Hoff) as Hsp.
    cbv zeta in Hcp. destruct Hcp as (_ & _ & Hconf).
    destruct Hsp as (_ & Hcases & _).
    unfold tick in *. cbn [conf] in *. heights Hs Ho.
    destruct (Z.ltb_spec latest s) as [|_]; [lia|].
    destruct (Z.ltb_spec s latest) as [_|]; [|lia].
    cbv beta iota. cbn [conf disk web3 clock res final emitted app].
    destruct (log env fuel latest s _) as [[[]|c|m| |] st1 tr1];
      cbn [res final emitted conf] in *.
    + destruct Hcases as [E|[(E & _)|(_ & _ & Hpos & _)]]; try discriminate.
      assert (Hrem : (0 < remaining latest (offset (conf st)) s)%nat).
      { rewrite (remaining_step _ _ _ Hoff Hlt). lia. }
      destruct (Hpos Hrem) as (-> & _).
      exists latest. cbn. repeat split; lia.
    + destruct Hconf as [->|(z & Hz & ->)].
      * exists s. rewrite Hs. repeat split; try lia. discriminate.
      * exists z. cbn. repeat split; try lia. discriminate.
    + destruct Hconf as [->|(z & Hz & ->)].
      * exists s. rewrite Hs. repeat split; try lia. discriminate.
      * exists z. cbn. repeat split; try lia. discriminate.
    + destruct Hconf as [->|(z & Hz & ->)].
      * exists s. rewrite Hs. repeat split; try lia. discriminate.
      * exists z. cbn. repeat split; try lia. discriminate.
    + destruct Hconf as [->|(z & Hz & ->)].
      * exists s. rewrite Hs. repeat split; try lia. discriminate.
      * exists z. cbn. repeat split; try lia. discriminate.
  - subst latest. rewrite (cycle_idle env fuel st s Hs Ho).
    exists s. cbn. rewrite Hs. repeat split; lia.
  - heights Hs Ho.
    destruct (Z.ltb_spec latest s) as [_|]; [|lia].
    destruct (Z.ltb_spec s latest) as [|_]; [lia|].
    cbv beta iota. cbn [conf disk web3 clock res final emitted app].
    exists latest.
    destruct (fs_writeFileSync env _ _); cbv beta iota;
      cbn [conf disk web3 clock res final emitted app syncedBlockHeight
           set_syncedBlockHeight];
      repeat split; lia.
Qed.

(* ================================================================== *)
(** ** The width of the fetched ranges *)
(* ================================================================== *)

Lemma subranges_within off L :
  0 < off ->
  forall n from f t, n = remaining L off from ->
  In (f, t) (subranges n from off L) ->
  from <= f /\ f < t /\ t <= L /\ t - f <= off.
Proof.
  intros Hoff. induction n as [|n IH]; intros from f t Hn Hin; [contradiction|].
  assert (Hlt : from < L).
  { destruct (Z_lt_le_dec from L) as [|Hge]; [assumption|].
    rewrite (remaining_done _ _ _ Hoff Hge) in Hn. discriminate. }
  rewrite (remaining_step _ _ _ Hoff Hlt) in Hn. injection Hn as Hn.
  destruct Hin as [E|Hin].
  - injection E as <- <-. lia.
  - specialize (IH (from + off) f t Hn Hin). lia.
Qed.

(** With heights added exactly: for a positive offset, every range [log]
    asks a contract for
    lies between the checkpoint it was called with and the bound [latest],
    is not empty, and spans at most [offset] blocks: the limit that the
    offset stands for is never exceeded. *)
Lemma ideal_fetches_within_limit env fuel st latest synced c f t :
  0 < offset (conf st) ->
  In (c, (f, t)) (fetches (emitted (log env fuel latest synced st))) ->
  synced <= f /\ f < t /\ t <= latest /\ t - f <= offset (conf st).
Proof.
  intros Hoff Hin.
  destruct (log_spec env fuel latest synced st Hoff) as (Hp & _).
  apply (prefix_In _ _ _ Hp) in Hin.
  apply in_flat_map in Hin. destruct Hin as ([f' t'] & Hr & Hc).
  assert (E : (f', t') = (f, t)).
  { cbn in Hc. destruct Hc as [E|[E|[E|[]]]]; congruence. }
  injection E as -> ->.
  eapply subranges_within; [exact Hoff|reflexivity|exact Hr].
Qed.

(* ================================================================== *)
(** ** JavaScript numbers: where the rounded loop is the exact one *)
(* ================================================================== *)

Lemma round64_exact x : - 2 ^ 53 <= x <= 2 ^ 53 -> round64 x = x.
Proof.
  intros Hx. unfold round64.
  destruct (Z.ltb_spec (Z.abs x) (2 ^ 53)) as [|Hge]; [reflexivity|].
  assert (Hcases : x = 2 ^ 53 \/ x = - 2 ^ 53) by lia.
  destruct Hcases as [-> | ->]; reflexivity.
Qed.

Lemma fadd_exact a b : - 2 ^ 53 <= a + b <= 2 ^ 53 -> fadd a b = a + b.
Proof. apply round64_exact. Qed.

Lemma fsub_exact a b : - 2 ^ 53 <= a - b <= 2 ^ 53 -> fsub a b = a - b.
Proof. apply round64_exact. Qed.

Lemma nearest_even_le num den N :
  0 < den -> num <= N * den -> nearest_even num den <= N.
Proof.
  intros Hden Hle. unfold nearest_even.
  pose proof (Z.div_mod num den ltac:(lia)) as E.
  pose proof (Z.mod_pos_bound num den Hden) as B.
  assert (Hk : num / den < N \/ (num / den = N /\ num mod den = 0)) by nia.
  destruct (Z.ltb_spec (2 * (num mod den)) den);
    [|destruct (Z.ltb_spec den (2 * (num mod den)));
      [|destruct (Z.even (num / den))]]; lia.
Qed.

Lemma nearest_even_gt num den N h :
  0 < den -> den < 2 * h -> N * den + h <= num ->
  N + 1 <= nearest_even num den.
Proof.
  intros Hden Hh Hle. unfold nearest_even.
  pose proof (Z.div_mod num den ltac:(lia)) as E.
  pose proof (Z.mod_pos_bound num den Hden) as B.
  assert (Hk : N + 1 <= num / den \/ (num / den = N /\ h <= num mod den))
    by nia.
  destruct (Z.ltb_spec (2 * (num mod den)) den);
    [|destruct (Z.ltb_spec den (2 * (num mod den)));
      [|destruct (Z.even (num / den))]]; lia.
Qed.

Lemma nearest_even_nonneg num den :
  0 <= num -> 0 < den -> 0 <= nearest_even num den.
Proof.
  intros Hnum Hden. unfold nearest_even.
  pose proof (Z.div_pos num den Hnum Hden) as K.
  destruct (Z.ltb_spec (2 * (num mod den)) den);
    [|destruct (Z.ltb_spec den (2 * (num mod den)));
      [|destruct (Z.even (num / den))]]; lia.
Qed.

(** The exponent found for [a / b] is not above the quotient's. *)
Lemma quot_exponent_below a b :
  0 < a -> 0 < b ->
  let e := quot_exponent a b in
  Z.log2 a - Z.log2 b - 1 <= e <= Z.log2 a - Z.log2 b /\
  (0 <= e -> 2 ^ e * b <= a) /\
  (e < 0 -> b <= a * 2 ^ (- e)).
Proof.
  intros Ha Hb e. subst e. unfold quot_exponent.
  pose proof (Z.log2_spec a Ha) as (La & _).
  pose proof (Z.log2_spec b Hb) as (_ & Ub).
  pose proof (Z.log2_nonneg a) as Na.
  pose proof (Z.log2_nonneg b) as Nb.
  set (la := Z.log2 a) in *. set (lb := Z.log2 b) in *.
  replace (Z.succ lb) with (lb + 1) in Ub by lia.
  cbv zeta.
  destruct (Z.leb_spec 0 (la - lb)) as [H0|H0].
  - destruct (Z.leb_spec (2 ^ (la - lb) * b) a) as [H1|H1].
    + split; [lia|]. split; [intros _; exact H1 | lia].
    + split; [lia|]. split.
      * intros He.
        assert (E : 2 ^ la = 2 ^ (la - lb - 1) * 2 ^ (lb + 1))
          by (rewrite <- Z.pow_add_r by lia; f_equal; lia).
        assert (P : 0 < 2 ^ (la - lb - 1)) by (apply Z.pow_pos_nonneg; lia).
        nia.
      * intros He. assert (la = lb) by lia.
        replace (- (la - lb - 1)) with 1 by lia.
        replace (2 ^ (lb + 1)) with (2 ^ lb * 2 ^ 1) in Ub
          by (rewrite <- Z.pow_add_r by lia; reflexivity).
        replace lb with la in Ub by lia. lia.
  - destruct (Z.leb_spec b (a * 2 ^ (- (la - lb)))) as [H1|H1].
    + split; [lia|]. split; [lia | intros _; exact H1].
    + split; [lia|]. split; [lia|]. intros _.
      assert (E : 2 ^ (lb + 1) = 2 ^ la * 2 ^ (- (la - lb - 1)))
        by (rewrite <- Z.pow_add_r by lia; f_equal; lia).
      assert (P : 0 < 2 ^ (- (la - lb - 1))) by (apply Z.pow_pos_nonneg; lia).
      nia.
Qed.

(** Below 2^53 the quotient is scaled up, rounded and scaled back. *)
Lemma round_quot_small a b :
  0 < a < 2 ^ 53 -> 0 < b < 2 ^ 53 ->
  exists sh,
    0 <= sh /\ b < 2 * 2 ^ sh /\
    round_quot a b
    = Fin (Qmake (nearest_even (a * 2 ^ sh) b) (Z.to_pos (2 ^ sh))).
Proof.
  intros Ha Hb.
  destruct (quot_exponent_below a b ltac:(lia) ltac:(lia)) as (He & Hpos & Hneg).
  assert (La : Z.log2 a < 53) by (apply Z.log2_lt_pow2; lia).
  assert (Lb : Z.log2 b < 53) by (apply Z.log2_lt_pow2; lia).
  pose proof (Z.log2_nonneg a) as Na.
  pose proof (Z.log2_nonneg b) as Nb.
  unfold round_quot.
  set (e := quot_exponent a b) in *.
  rewrite (Z.max_l e (-1022)) by lia. cbv zeta.
  exists (52 - e).
  destruct (Z.leb_spec 0 (52 - e)) as [Hsh|]; [|lia].
  destruct (Z.ltb_spec 1023 e) as [|_]; [lia|].
  destruct (Z.eqb_spec e 1023) as [|_]; [lia|].
  cbn [orb andb].
  split; [exact Hsh|]. split; [|reflexivity].
  destruct (Z_lt_le_dec e 0) as [Hlt|Hge].
  - specialize (Hneg Hlt).
    assert (E : 2 * 2 ^ (52 - e) = 2 ^ 53 * 2 ^ (- e)).
    { rewrite <- (Z.pow_add_r 2 53 (- e)) by lia.
      replace (53 + - e) with (1 + (52 - e)) by lia.
      now rewrite (Z.pow_add_r 2 1 (52 - e)) by lia. }
    assert (P : 0 < 2 ^ (- e)) by (apply Z.pow_pos_nonneg; lia).
    nia.
  - specialize (Hpos Hge).
    assert (E : 2 ^ 53 = 2 ^ e * (2 * 2 ^ (52 - e))).
    { replace 53 with (e + (1 + (52 - e))) by lia.
      rewrite (Z.pow_add_r 2 e) by lia.
      now rewrite (Z.pow_add_r 2 1 (52 - e)) by lia. }
    assert (P : 0 < 2 ^ e) by (apply Z.pow_pos_nonneg; lia).
    assert (P' : 0 < 2 ^ (52 - e)) by (apply Z.pow_pos_nonneg; lia).
    nia.
Qed.

(** A quotient of two positive integers is not rounded below zero. *)
Lemma round_quot_nonneg a b :
  0 < a -> 0 < b ->
  Math_max (of_Z 0) (negate (round_quot a b)) = of_Z 0.
Proof.
  intros Ha Hb. unfold round_quot. cbv zeta.
  set (e := Z.max (quot_exponent a b) (-1022)).
  destruct ((1023 <? e) || ((e =? 1023) && _)); [reflexivity|].
  destruct (Z.leb_spec 0 (52 - e)) as [Hsh|Hsh].
  - assert (P : 0 < 2 ^ (52 - e)) by (apply Z.pow_pos_nonneg; lia).
    pose proof (nearest_even_nonneg (a * 2 ^ (52 - e)) b ltac:(nia) Hb) as Hm.
    unfold negate, Math_max, of_Z, Qltb, inject_Z, Qopp. cbn [Qnum Qden].
    rewrite Z2Pos.id by lia.
    destruct (Z.ltb_spec (0 * 2 ^ (52 - e)) (- nearest_even (a * 2 ^ (52 - e)) b * 1));
      [lia | reflexivity].
  - assert (P : 0 < 2 ^ (- (52 - e))) by (apply Z.pow_pos_nonneg; lia).
    pose proof (nearest_even_nonneg a (b * 2 ^ (- (52 - e))) ltac:(lia)
                  ltac:(nia)) as Hm.
    unfold negate, Math_max, of_Z, Qltb, inject_Z, Qopp. cbn [Qnum Qden].
    destruct (Z.ltb_spec (0 * 1)
                (- (nearest_even a (b * 2 ^ (- (52 - e))) * 2 ^ (- (52 - e))) * 1));
      [nia | reflexivity].
Qed.

Lemma bind_ext {A B} (m : M A) (f g : A -> M B) st :
  (forall a st', f a st' = g a st') -> bind m f st = bind m g st.
Proof.
  intros H. unfold bind.
  destruct (m st) as [[a|c|msg| |] st1 tr1]; try reflexivity.
  now rewrite H.
Qed.

Section Exact.

Variable env : Env.
Variables L s off : Z.
Hypothesis Hoff : 0 < off.
Hypothesis Hheld : exactly_held L s off.

(** The loop test [i < iterationCount] on JavaScript numbers. *)
Lemma loop_test64 i :
  0 <= i ->
  num_ltb (of_Z i) (iteration_count64 L s off) = (i * off <? L - s).
Proof.
  intros Hi. unfold exactly_held in Hheld.
  unfold iteration_count64. rewrite fsub_exact by lia.
  unfold fdiv.
  destruct (Z.eqb_spec off 0) as [|_]; [lia|].
  destruct (Z.eqb_spec (L - s) 0) as [E0|N0].
  - rewrite E0. unfold Math_max, of_Z, num_ltb, Qltb, inject_Z.
    cbn [Qnum Qden].
    destruct (Z.ltb_spec (0 * 1) (0 * 1)) as [|_]; [lia|].
    cbn [Qnum Qden].
    destruct (Z.ltb_spec (i * 1) (0 * 1)) as [|_]; [lia|].
    symmetry. apply Z.ltb_ge. nia.
  - destruct (Z.ltb_spec 0 (Z.sgn (L - s) * Z.sgn off)) as [Hs|Hs].
    + assert (Hpos : 0 < L - s) by nia.
      rewrite (Z.abs_eq (L - s)), (Z.abs_eq off) by lia.
      destruct (round_quot_small (L - s) off ltac:(lia) ltac:(lia))
        as (sh & Hsh & Hbsh & ->).
      assert (P : 0 < 2 ^ sh) by (apply Z.pow_pos_nonneg; lia).
      set (m := nearest_even ((L - s) * 2 ^ sh) off).
      assert (Hm : 1 <= m).
      { apply (nearest_even_gt _ off 0 (2 ^ sh)); nia. }
      unfold Math_max, of_Z, num_ltb, Qltb, inject_Z. cbn [Qnum Qden].
      rewrite Z2Pos.id by lia.
      destruct (Z.ltb_spec (0 * 2 ^ sh) (m * 1)) as [_|]; [|lia].
      cbn [Qnum Qden]. rewrite Z2Pos.id by lia.
      destruct (Z.ltb_spec (i * off) (L - s)) as [Hlt|Hge].
      * apply Z.ltb_lt.
        assert (i * 2 ^ sh + 1 <= m); [|lia].
        apply (nearest_even_gt _ off (i * 2 ^ sh) (2 ^ sh)); nia.
      * apply Z.ltb_ge.
        assert (m <= i * 2 ^ sh); [|lia].
        apply nearest_even_le; nia.
    + assert (Hneg : L - s < 0) by nia.
      rewrite round_quot_nonneg by lia.
      unfold of_Z, num_ltb, Qltb, inject_Z. cbn [Qnum Qden].
      destruct (Z.ltb_spec (i * 1) (0 * 1)) as [|_]; [lia|].
      symmetry. apply Z.ltb_ge. nia.
Qed.

Lemma first_to64_exact : first_to64 L s off = first_to L s off.
Proof.
  unfold first_to64, first_to. unfold exactly_held in Hheld.
  rewrite fsub_exact by lia.
  destruct (Z.gtb_spec (L - s) off); [|reflexivity].
  apply fadd_exact. lia.
Qed.

Lemma log_loop64_exact fuel : forall i from to st,
  0 <= i -> from = s + i * off ->
  log_loop64 env fuel L off (iteration_count64 L s off) i from to st
  = log_loop env fuel L off (iteration_count L s off) i from to st.
Proof.
  unfold exactly_held in Hheld.
  induction fuel as [|fuel IH]; intros i from to st Hi Hfrom;
    cbn [log_loop log_loop64];
    rewrite (loop_test L s off i Hoff Hi), (loop_test64 i Hi);
    destruct (Z.ltb_spec (i * off) (L - s)) as [Hlt|Hge]; try reflexivity.
  apply bind_ext. intros _ st1.
  assert (E1 : fadd from off = from + off) by (apply fadd_exact; nia).
  assert (E2 : fadd (from + off) off = from + off + off)
    by (apply fadd_exact; nia).
  assert (E3 : fadd i 1 = i + 1) by (apply fadd_exact; nia).
  rewrite E1, E2, E3.
  apply bind_ext. intros _ st2. apply bind_ext. intros _ st3.
  apply IH; lia.
Qed.

End Exact.

Section ExactLog.

Variable env : Env.

(** Within 2^53 the loop on JavaScript numbers is the loop on integers. *)
Lemma log64_exact fuel L s st :
  0 < offset (conf st) -> exactly_held L s (offset (conf st)) ->
  log64 env fuel L s st = log env fuel L s st.
Proof.
  intros Hoff Hheld. unfold log64, log. rewrite !bind_get_conf.
  rewrite (first_to64_exact L s _ Hoff Hheld).
  unfold bind.
  rewrite (log_loop64_exact env L s _ Hoff Hheld fuel 0 s _ st) by lia.
  reflexivity.
Qed.

End ExactLog.

Ltac open_cycle64 :=
  cbv [cycle64 blockHeights bind get_conf getBlockNumber reInit timeOut ret
       throw assign_syncedBlockHeight saveConf writeFileSync process_exit
       unmodelled tick];
  cbn [conf disk web3 clock res final emitted].

Ltac heights64 Hs Ho :=
  open_cycle64; rewrite Hs, isNaN_height; cbv beta iota;
  cbn [conf disk web3 clock res final emitted];
  rewrite Ho; cbv beta iota;
  cbn [conf disk web3 clock res final emitted app];
  rewrite ?ToNumber_height, ?num_ltb_of_Z, ?as_integer_height.

(** Within 2^53 a turn on JavaScript numbers is the turn on integers. *)
Lemma cycle64_exact env fuel st s latest :
  syncedBlockHeight (conf st) = height s ->
  eth_getBlockNumber env (clock st) = Some latest ->
  0 < offset (conf st) -> exactly_held latest s (offset (conf st)) ->
  cycle64 env fuel st = cycle env fuel st.
Proof.
  intros Hs Ho Hoff Hheld.
  pose proof (log64_exact env fuel latest s (tick st) Hoff Hheld) as Hlog.
  unfold tick in Hlog. heights64 Hs Ho. heights Hs Ho.
  destruct (Z.ltb_spec latest s); destruct (Z.ltb_spec s latest); try lia;
    cbv beta iota; cbn [conf disk web3 clock res final emitted app];
    try reflexivity.
  rewrite Hlog. reflexivity.
Qed.

(* ================================================================== *)
(** ** The sub-ranges, on JavaScript numbers *)
(* ================================================================== *)

(** C2, refuted as stated: with the checkpoint at 2^53, the chain head at
    2^53 + 2 and an offset of 1, every sum is rounded back to 2^53.  The
    two turns of the loop both ask for the range from 2^53 to 2^53, which
    does not reach the chain head, and the checkpoint left on disk is 2^53,
    not the chain head. *)
Lemma C2_gap_not_covered_beyond_2_53 :
  let synced := 9007199254740992 in
  let latest := 9007199254740994 in
  let r := log64 (calm latest) 10 latest synced beyond_2_53 in
  synced <= latest /\ 0 < offset (conf beyond_2_53) /\
  res r = Ok tt /\
  fetches (emitted r)
  = flat_map per_contract [(synced, synced); (synced, synced)] /\
  ~ chain synced [(synced, synced); (synced, synced)] latest /\
  disk (final r) = Some (mkConf (height synced) 5 1) /\
  height synced <> height latest.
Proof.
  vm_compute. repeat split; try discriminate.
  intros (_ & H & _). discriminate H.
Qed.

(** C2, as the code has it.  For [synced <= latest] and a positive offset,
    with heights that JavaScript numbers hold exactly
    ([0 <= synced], [latest + 2 * offset <= 2^53]), the ranges [log] hands
    to [getPastEvents] are, contract after contract, the sub-ranges
    [(from, min(from + offset, latest))] that start at [synced], follow one
    another without a gap or an overlap and end at [latest]; there are
    [ceil((latest - synced) / offset)] of them, none when [synced = latest].
    A run cut short by a failure has fetched a prefix of them; a run that
    completes has fetched them all and, when there was a gap, has left
    [latest] as the persisted checkpoint; with enough fuel and no failing
    collaborator the run does complete.  The loop counter [i] has the value
    [ceil((latest - synced) / offset)] when the loop is left. *)
Theorem C2_subranges_cover_the_gap env fuel st latest synced :
  synced <= latest -> 0 < offset (conf st) ->
  exactly_held latest synced (offset (conf st)) ->
  let off := offset (conf st) in
  let n := ceil_div (latest - synced) off in
  let ranges := subranges (Z.to_nat n) synced off latest in
  let r := log64 env fuel latest synced st in
  (0 <= n /\ (n - 1) * off < latest - synced <= n * off /\
   (synced = latest -> ranges = [])) /\
  List.length ranges = Z.to_nat n /\
  chain synced ranges latest /\
  prefix (fetches (emitted r)) (flat_map per_contract ranges) /\
  (res r = Ok tt ->
     fetches (emitted r) = flat_map per_contract ranges /\
     (synced < latest ->
        disk (final r)
        = Some (set_syncedBlockHeight (height latest) (conf st)))) /\
  (dependable env -> (Z.to_nat n <= fuel)%nat -> res r = Ok tt) /\
  (forall i from to,
     res (log_loop64 env fuel latest off (iteration_count64 latest synced off)
                     0 synced (first_to64 latest synced off) st)
     = Ok (i, from, to) ->
     i = n).
Proof.
  intros Hle Hoff Hheld off n ranges r. subst r.
  rewrite (log64_exact env fuel latest synced st Hoff Hheld).
  fold off in Hheld.
  rewrite (first_to64_exact latest synced off Hoff Hheld).
  rewrite (log_loop64_exact env latest synced off Hoff Hheld fuel 0 synced _ st)
    by lia.
  exact (ideal_subranges_cover_the_gap env fuel st latest synced Hle Hoff).
Qed.

Lemma calm_exactly_held :
  exactly_held 250 100 (offset (conf (start (height 100)))).
Proof. unfold exactly_held. cbn. lia. Qed.

(** Scenario A: checkpoint 100, chain head 250, sub-range size 100. *)
Lemma C2_scenario_A :
  100 <= 250 /\ 0 < offset (conf (start (height 100))) /\
  exactly_held 250 100 (offset (conf (start (height 100)))) /\
  let r := log64 (calm 250) 10 250 100 (start (height 100)) in
  fetches (emitted r) = flat_map per_contract [(100, 200); (200, 250)] /\
  disk (final r) = Some (mkConf (height 250) 5 100).
Proof.
  split; [lia|]. split; [reflexivity|]. split; [exact calm_exactly_held|].
  destruct (C2_subranges_cover_the_gap (calm 250) 10 (start (height 100)) 250 100
              ltac:(lia) ltac:(reflexivity) calm_exactly_held)
    as (_ & _ & _ & _ & Hok & Hrun & _).
  specialize (Hrun (calm_dependable 250) ltac:(vm_compute; lia)).
  destruct (Hok Hrun) as (Hf & Hd).
  split; [exact Hf | exact (Hd ltac:(lia))].
Defined.

(** C8, refuted as stated: with the checkpoint at 2^54, the chain head at
    2^54 + 16 and an offset of 3, the sums are rounded to multiples of 4 and
    the sixth sub-range handed to [getPastEvents] starts at 2^54 + 20 and
    ends at 2^54 + 16. *)
Lemma C8_range_runs_backwards_beyond_2_54 :
  let synced := 18014398509481984 in
  let latest := 18014398509482000 in
  let r := log64 (calm latest) 10 latest synced beyond_2_54 in
  synced < latest /\ 0 < offset (conf beyond_2_54) /\
  In (privateSale, (18014398509482004, 18014398509482000))
     (fetches (emitted r)) /\
  ~ 18014398509482004 <= 18014398509482000.
Proof.
  vm_compute. split; [reflexivity|]. split; [reflexivity|]. split.
  - do 15 right. left. reflexivity.
  - intros H. now apply H.
Qed.

(** C8, as the code has it.  For [synced < latest] and a positive offset,
    with heights that JavaScript numbers hold exactly ([0 <= synced],
    [latest + 2 * offset <= 2^53]), every range [log] hands to
    [getPastEvents] runs forward: [fromBlock <= toBlock]. *)
Theorem C8_fetched_ranges_run_forward env fuel st latest synced c f t :
  synced < latest -> 0 < offset (conf st) ->
  exactly_held latest synced (offset (conf st)) ->
  In (c, (f, t)) (fetches (emitted (log64 env fuel latest synced st))) ->
  f <= t.
Proof.
  intros Hlt Hoff Hheld.
  rewrite (log64_exact env fuel latest synced st Hoff Hheld).
  exact (ideal_fetched_ranges_run_forward env fuel st latest synced c f t
           Hlt Hoff).
Qed.

Lemma C8_scenario_A :
  100 < 250 /\ 0 < offset (conf (start (height 100))) /\
  exactly_held 250 100 (offset (conf (start (height 100)))) /\
  In (chainGuardian, (200, 250))
     (fetches (emitted (log64 (calm 250) 10 250 100 (start (height 100))))) /\
  200 <= 250.
Proof.
  split; [lia|]. split; [reflexivity|]. split; [exact calm_exactly_held|].
  assert (Hin : In (chainGuardian, (200, 250))
                   (fetches (emitted (log64 (calm 250) 10 250 100
                                            (start (height 100)))))).
  { vm_compute. right; right; right; right; left. reflexivity. }
  split; [exact Hin|].
  exact (C8_fetched_ranges_run_forward (calm 250) 10 (start (height 100))
           250 100 chainGuardian 200 250 ltac:(lia) ltac:(reflexivity)
           calm_exactly_held Hin).
Defined.

(** X4.  For a positive offset and heights that JavaScript numbers hold
    exactly, the checkpoints a call of [log] puts on disk are, in order,
    [min(synced + (k + 2) * offset, latest)] for [k = 0, 1, ...]: one per
    sub-range, each the end of the sub-range after the one just processed
    (or [latest]), never decreasing.  A run that is stopped has written a
    prefix of them, a run that completes has written all
    [ceil((latest - synced) / offset)] of them. *)
Theorem log_writes_one_checkpoint_per_subrange env fuel st latest synced :
  0 < offset (conf st) ->
  exactly_held latest synced (offset (conf st)) ->
  let off := offset (conf st) in
  let n := Z.to_nat (ceil_div (latest - synced) off) in
  let heights := checkpoint_heights n synced off latest in
  let r := log64 env fuel latest synced st in
  prefix (checkpoints (emitted r)) (map height heights) /\
  (res r = Ok tt -> checkpoints (emitted r) = map height heights) /\
  List.length heights = n /\
  (forall k, (k < n)%nat ->
     nth k heights 0 = Z.min (synced + (Z.of_nat k + 2) * off) latest) /\
  ascending heights.
Proof.
  intros Hoff Hheld off n heights r. subst r.
  rewrite (log64_exact env fuel latest synced st Hoff Hheld).
  exact (ideal_checkpoint_sequence env fuel st latest synced Hoff).
Qed.

Lemma long_gap_exactly_held :
  exactly_held 450 100 (offset (conf (start (height 100)))).
Proof. unfold exactly_held. cbn. lia. Qed.

Lemma checkpoints_of_a_long_gap :
  0 < offset (conf (start (height 100))) /\
  exactly_held 450 100 (offset (conf (start (height 100)))) /\
  checkpoints (emitted (log64 (calm 450) 10 450 100 (start (height 100))))
  = [height 300; height 400; height 450; height 450].
Proof.
  split; [reflexivity|]. split; [exact long_gap_exactly_held|].
  destruct (log_writes_one_checkpoint_per_subrange (calm 450) 10
              (start (height 100)) 450 100 eq_refl long_gap_exactly_held)
    as (_ & He & _).
  exact (He eq_refl).
Defined.

(** X5.  For a positive offset and heights that JavaScript numbers hold
    exactly, whatever happens during a call of [log], every checkpoint it
    puts on disk is an integer height strictly above the checkpoint it
    started from and not above the bound [latest], and so is the checkpoint
    it leaves in the conf when it has changed it. *)
Theorem log_checkpoints_stay_within_the_gap env fuel st latest synced :
  0 < offset (conf st) ->
  exactly_held latest synced (offset (conf st)) ->
  let r := log64 env fuel latest synced st in
  (forall v, In v (checkpoints (emitted r)) ->
     exists z, v = height z /\ synced < z <= latest) /\
  (conf (final r) = conf st \/
   exists z, synced < z <= latest /\
             conf (final r) = set_syncedBlockHeight (height z) (conf st)).
Proof.
  intros Hoff Hheld r. subst r.
  rewrite (log64_exact env fuel latest synced st Hoff Hheld).
  exact (ideal_checkpoints_within_the_gap env fuel st latest synced Hoff).
Qed.

Lemma checkpoints_within_the_gap_example :
  0 < offset (conf (start (height 100))) /\
  exactly_held 250 100 (offset (conf (start (height 100)))) /\
  In (height 250)
     (checkpoints (emitted (log64 scenarioC 10 250 100 (start (height 100))))) /\
  exists z, height 250 = height z /\ 100 < z <= 250.
Proof.
  split; [reflexivity|]. split; [exact calm_exactly_held|].
  assert (Hin : In (height 250)
                   (checkpoints (emitted (log64 scenarioC 10 250 100
                                                (start (height 100))))))
    by (vm_compute; left; reflexivity).
  split; [exact Hin|].
  destruct (log_checkpoints_stay_within_the_gap scenarioC 10
              (start (height 100)) 250 100 eq_refl calm_exactly_held)
    as (Hb & _).
  exact (Hb _ Hin).
Defined.

(** X15.  Take a turn of the scheduler that starts with an integer
    checkpoint, a positive offset, an answer [latest] to the height query,
    and heights that JavaScript numbers hold exactly.  However the turn
    ends, the checkpoint it leaves in the conf is an integer height that is
    not above [latest], and not below the old checkpoint unless the chain
    head was below it; when the turn completes that checkpoint is exactly
    [latest]. *)
Theorem turn_leaves_checkpoint_at_or_below_head env fuel st s latest :
  syncedBlockHeight (conf st) = height s ->
  eth_getBlockNumber env (clock st) = Some latest ->
  0 < offset (conf st) ->
  exactly_held latest s (offset (conf st)) ->
  let r := cycle64 env fuel st in
  exists z,
    syncedBlockHeight (conf (final r)) = height z /\
    z <= latest /\
    (s <= latest -> s <= z) /\
    (res r = Ok tt -> z = latest).
Proof.
  intros Hs Ho Hoff Hheld r. subst r.
  rewrite (cycle64_exact env fuel st s latest Hs Ho Hoff Hheld).
  exact (ideal_turn_checkpoint env fuel st s latest Hs Ho Hoff).
Qed.

Lemma turn_checkpoint_in_scenario_C :
  let st := start (height 100) in
  syncedBlockHeight (conf st) = height 100 /\
  eth_getBlockNumber scenarioC (clock st) = Some 250 /\
  0 < offset (conf st) /\
  exactly_held 250 100 (offset (conf st)) /\
  res (cycle64 scenarioC 10 st) = Exit 0 /\
  exists z,
    syncedBlockHeight (conf (final (cycle64 scenarioC 10 st))) = height z /\
    z <= 250 /\ (100 <= 250 -> 100 <= z) /\
    (res (cycle64 scenarioC 10 st) = Ok tt -> z = 250).
Proof.
  intros st. split; [reflexivity|]. split; [reflexivity|].
  split; [reflexivity|]. split; [exact calm_exactly_held|].
  split; [reflexivity|].
  exact (turn_leaves_checkpoint_at_or_below_head scenarioC 10 st 100 250
           eq_refl eq_refl eq_refl calm_exactly_held).
Defined.

(** X16.  For a positive offset and heights that JavaScript numbers hold
    exactly, every range [log] asks a contract for lies between the
    checkpoint it was called with and the bound [latest], is not empty, and
    spans at most [offset] blocks: the limit that the offset stands for is
    never exceeded. *)
Theorem log_fetches_respect_the_limit env fuel st latest synced c f t :
  0 < offset (conf st) ->
  exactly_held latest synced (offset (conf st)) ->
  In (c, (f, t)) (fetches (emitted (log64 env fuel latest synced st))) ->
  synced <= f /\ f < t /\ t <= latest /\ t - f <= offset (conf st).
Proof.
  intros Hoff Hheld.
  rewrite (log64_exact env fuel latest synced st Hoff Hheld).
  exact (ideal_fetches_within_limit env fuel st latest synced c f t Hoff).
Qed.

Lemma log_fetch_limit_example :
  0 < offset (conf (start (height 100))) /\
  exactly_held 250 100 (offset (conf (start (height 100)))) /\
  In (trustPad, (200, 250))
     (fetches (emitted (log64 (calm 250) 10 250 100 (start (height 100))))) /\
  100 <= 200 /\ 200 < 250 /\ 250 <= 250 /\
  250 - 200 <= offset (conf (start (height 100))).
Proof.
  split; [reflexivity|]. split; [exact calm_exactly_held|].
  assert (Hin : In (trustPad, (200, 250))
                   (fetches (emitted (log64 (calm 250) 10 250 100
                                            (start (height 100))))))
    by (vm_compute; do 5 right; left; reflexivity).
  split; [exact Hin|].
  exact (log_fetches_respect_the_limit (calm 250) 10 (start (height 100))
           250 100 trustPad 200 250 eq_refl calm_exactly_held Hin).
Defined.

(* ================================================================== *)
(** ** Fetches and hand-overs in a whole run *)
(* ================================================================== *)

Lemma handed_from_app env w tr1 : forall p q tr2 r,
  handed_from env w p tr1 q -> handed_from env w q tr2 r ->
  handed_from env w p (tr1 ++ tr2) r.
Proof.
  induction tr1 as [|a tr1 IH]; intros p q tr2 r H1 H2.
  - cbn in H1. now subst q.
  - cbn [app handed_from] in *. destruct p as [[c batch]|].
    + destruct H1 as (Ha & H1). split; [exact Ha|]. eapply IH; eassumption.
    + destruct a as [o| |sec|c f t [[|e es]|]|n ev w' d ok|cf ok];
        try contradiction; eapply IH; eassumption.
Qed.

Lemma name_eqb c c' :
  String.eqb (contract_name c') (contract_name c) = contract_eqb c c'.
Proof. destruct c, c'; reflexivity. Qed.

Lemma handed_from_counts env w c tr : forall p q,
  handed_from env w p tr q ->
  (List.length (logSync_calls (contract_name c) tr) + pending_for c q
   = List.length (filter nonempty_answer (fetched c tr)) + pending_for c p)%nat.
Proof.
  induction tr as [|a tr IH]; intros p q H.
  - cbn in H. subst q. reflexivity.
  - cbn [handed_from] in H. destruct p as [[c' batch]|].
    + destruct H as ((ok & ->) & H). specialize (IH _ _ H).
      cbn [logSync_calls fetched flat_map app pending_for] in *.
      rewrite name_eqb. destruct (contract_eqb c c'); cbn [app List.length];
        fold (logSync_calls (contract_name c) tr); fold (fetched c tr); lia.
    + destruct a as [o| |sec|c' f t [[|e es]|]|n ev w' d ok|cf ok];
        try contradiction; specialize (IH _ _ H);
        cbn [logSync_calls fetched flat_map app pending_for] in *;
        fold (logSync_calls (contract_name c) tr); fold (fetched c tr);
        try exact IH;
        destruct (contract_eqb c c');
        cbn [app filter nonempty_answer List.length]; lia.
Qed.

Section Handed.

Variable env : Env.

Lemma sync_subrange_handed from to st :
  handed env (web3 st) (emitted (sync_subrange env from to st)).
Proof.
  cbv [sync_subrange fetchEvents logEvents getPastEvents logSync timeOut
       get_conf get_web3 process_exit bind ret]. cbn.
  repeat env_case.
  all: unfold handed; cbn [handed_from contract_name contract_duration].
  all: repeat split; eauto.
Qed.

Lemma log_loop64_step fuel L off count i from to st :
  num_ltb (of_Z i) count = true ->
  log_loop64 env (S fuel) L off count i from to st
  = match sync_subrange env from to st with
    | mkRun (Ok _) st1 tr1 =>
        let from' := fadd from off in
        let to' := if fadd from' off >? L then L else fadd from' off in
        let cf := set_syncedBlockHeight (height to') (conf st1) in
        if fs_writeFileSync env (clock st1) cf then
          match log_loop64 env fuel L off count (fadd i 1) from' to'
                           (mkState cf (Some cf) (web3 st1) (S (clock st1))) with
          | mkRun r3 st3 tr3 => mkRun r3 st3 (tr1 ++ WriteFile cf true :: tr3)
          end
        else mkRun (Exit 0)
                   (mkState cf (disk st1) (web3 st1) (S (clock st1)))
                   (tr1 ++ [WriteFile cf false])
    | mkRun (Exit c) st1 tr1 => mkRun (Exit c) st1 tr1
    | mkRun (Throw m) st1 tr1 => mkRun (Throw m) st1 tr1
    | mkRun Unmodelled st1 tr1 => mkRun Unmodelled st1 tr1
    | mkRun OutOfFuel st1 tr1 => mkRun OutOfFuel st1 tr1
    end.
Proof.
  intros Htest. cbn [log_loop64]. rewrite Htest. unfold bind at 1.
  destruct (sync_subrange env from to st) as [[[]|c|m| |] st1 tr1];
    try reflexivity.
  cbv [bind assign_syncedBlockHeight saveConf get_conf writeFileSync ret
       process_exit].
  cbn [conf disk web3 clock res final emitted app].
  destruct (fs_writeFileSync env (clock st1) _); [|reflexivity].
  destruct (log_loop64 env fuel L off count (fadd i 1) _ _ _) as [r3 st3 tr3].
  reflexivity.
Qed.

Lemma log64_unfold fuel L s st :
  log64 env fuel L s st
  = match log_loop64 env fuel L (offset (conf st))
                     (iteration_count64 L s (offset (conf st))) 0 s
                     (first_to64 L s (offset (conf st))) st with
    | mkRun (Ok _) st1 tr1 => mkRun (Ok tt) st1 tr1
    | mkRun (Exit c) st1 tr1 => mkRun (Exit c) st1 tr1
    | mkRun (Throw m) st1 tr1 => mkRun (Throw m) st1 tr1
    | mkRun Unmodelled st1 tr1 => mkRun Unmodelled st1 tr1
    | mkRun OutOfFuel st1 tr1 => mkRun OutOfFuel st1 tr1
    end.
Proof.
  unfold log64. rewrite bind_get_conf. unfold bind.
  destruct (log_loop64 env fuel L _ _ 0 s _ st) as [[x|c|m| |] st1 tr1];
    cbn [ret]; rewrite ?app_nil_r; reflexivity.
Qed.

Lemma log_loop64_handed L off count fuel : forall i from to st r,
  log_loop64 env fuel L off count i from to st = r ->
  handed env (web3 st) (emitted r) /\
  existsb failed (emitted r) = exited r /\
  (forall code, res r = Exit code -> code = 0) /\
  (forall x, res r = Ok x ->
     exists ranges,
       fetches (emitted r) = flat_map per_contract ranges /\
       List.length ranges = List.length (checkpoints (emitted r))).
Proof.
  induction fuel as [|fuel IH]; intros i from to st r Hr;
    destruct (num_ltb (of_Z i) count) eqn:Htest.
  - cbn [log_loop64] in Hr. rewrite Htest in Hr. subst r. cbn.
    repeat split; discriminate.
  - cbn [log_loop64] in Hr. rewrite Htest in Hr. subst r. cbn.
    repeat split; try discriminate. intros x _. now exists [].
  - rewrite (log_loop64_step fuel L off count i from to st Htest) in Hr.
    cbv zeta in Hr.
    pose proof (sync_subrange_spec env from to st) as H1.
    pose proof (sync_subrange_handed from to st) as H2.
    cbv zeta in H1.
    destruct (sync_subrange env from to st) as [[[]|c|m| |] st1 tr1];
      cbn [res final emitted exited] in H1, H2;
      destruct H1 as (Hc1 & Hd1 & Hw1 & _ & Hf1 & Hk1 & He1 & Ho1 & _);
      try (destruct Ho1; discriminate).
    + specialize (Hf1 eq_refl).
      destruct (fs_writeFileSync env (clock st1) _).
      * match type of Hr with
        | match log_loop64 env fuel L off count ?i' ?f' ?t' ?st' with _ => _ end = _ =>
            specialize (IH i' f' t' st' _ eq_refl);
            destruct (log_loop64 env fuel L off count i' f' t' st')
              as [r3 st3 tr3]
        end.
        cbn [res final emitted web3] in IH.
        destruct IH as (Hh3 & He3 & Hc3 & Hr3).
        subst r. cbn [res final emitted exited].
        rewrite fetches_app, checkpoints_app, existsb_app, Hf1, Hk1, He1.
        cbn [fetches checkpoints flat_map fetch_of write_of app existsb
             failed orb].
        rewrite Hw1 in Hh3.
        split; [|split; [exact He3|split; [exact Hc3|]]].
        -- eapply handed_from_app; [exact H2|]. exact Hh3.
        -- intros x Hx. destruct (Hr3 x Hx) as (ranges & Hfr & Hlen).
           exists ((from, to) :: ranges).
           unfold fetches, checkpoints in *. cbn [flat_map app List.length].
           rewrite Hfr, Hlen. split; reflexivity.
      * subst r. cbn [res final emitted exited].
        rewrite existsb_app, He1. cbn [existsb failed orb].
        split; [|split; [reflexivity|split; [|discriminate]]].
        -- eapply handed_from_app; [exact H2|]. reflexivity.
        -- intros code E. now injection E as <-.
    + destruct Ho1 as [|Ho1]; [discriminate|]. injection Ho1 as ->.
      subst r. cbn [res final emitted exited].
      split; [exact H2|]. split; [exact He1|].
      split; [|discriminate]. intros code E. now injection E as <-.
  - cbn [log_loop64] in Hr. rewrite Htest in Hr. subst r. cbn.
    repeat split; try discriminate. intros x _. now exists [].
Qed.

Lemma log64_handed fuel L s st :
  let r := log64 env fuel L s st in
  handed env (web3 st) (emitted r) /\
  existsb failed (emitted r) = exited r /\
  (forall code, res r = Exit code -> code = 0) /\
  (res r = Ok tt ->
     exists ranges,
       fetches (emitted r) = flat_map per_contract ranges /\
       List.length ranges = List.length (checkpoints (emitted r))).
Proof.
  intros r. subst r. rewrite log64_unfold.
  pose proof (log_loop64_handed L (offset (conf st))
                (iteration_count64 L s (offset (conf st))) fuel 0 s
                (first_to64 L s (offset (conf st))) st _ eq_refl) as H.
  destruct (log_loop64 env fuel L _ _ 0 s _ st) as [[x|c|m| |] st1 tr1];
    cbn [res final emitted exited] in H |- *;
    destruct H as (Hh & He & Hc & Hr);
    (split; [exact Hh|]); (split; [exact He|]); split; try discriminate.
  - intros _. exact (Hr x eq_refl).
  - intros code E. injection E as <-. exact (Hc c eq_refl).
Qed.

End Handed.

(** C9.  In every run of [log], whatever its outcome: each fetch that
    returns a batch that is not empty is followed at once by exactly one
    [logSync] call, made with the name of the contract fetched, that batch,
    the chain client in use and the duration parameter of that contract;
    a fetch that returns an empty batch, or fails, is followed by none; and
    there is no other [logSync] call.  So for each contract the number of
    [logSync] calls under its name is the number of its fetches that
    returned a batch that is not empty.  In a run that completes, every
    sub-range processed (one per checkpoint written) has been fetched for
    the three contracts, in the declared order. *)
Theorem C9_logSync_once_per_nonempty_batch env fuel st latest synced :
  let r := log64 env fuel latest synced st in
  handed env (web3 st) (emitted r) /\
  (forall c,
     List.length (logSync_calls (contract_name c) (emitted r))
     = List.length (filter nonempty_answer (fetched c (emitted r)))) /\
  (res r = Ok tt ->
     exists ranges,
       fetches (emitted r) = flat_map per_contract ranges /\
       List.length ranges = List.length (checkpoints (emitted r))).
Proof.
  intros r.
  destruct (log64_handed env fuel latest synced st) as (Hh & _ & _ & Hr).
  fold r in Hh, Hr. split; [exact Hh|]. split; [|exact Hr].
  intros c. pose proof (handed_from_counts env (web3 st) c _ _ _ Hh) as H.
  cbn [pending_for] in H. lia.
Qed.

(** Scenario A: the private sale returns one event in each of the two
    sub-ranges, the other contracts none. *)
Lemma C9_scenario_A :
  let r := log64 (calm 250) 10 250 100 (start (height 100)) in
  res r = Ok tt /\
  logSync_calls "private-sale" (emitted r)
  = [("private-sale", [7], 0%nat, VString "10");
     ("private-sale", [7], 0%nat, VString "10")] /\
  List.length (logSync_calls "chain-guardian" (emitted r)) = 0%nat /\
  List.length (checkpoints (emitted r)) = 2%nat /\
  handed (calm 250) 0 (emitted r) /\
  exists ranges,
    fetches (emitted r) = flat_map per_contract ranges /\
    List.length ranges = List.length (checkpoints (emitted r)).
Proof.
  intros r.
  assert (Hres : res r = Ok tt) by reflexivity.
  split; [exact Hres|]. split; [reflexivity|]. split; [reflexivity|].
  split; [reflexivity|].
  destruct (C9_logSync_once_per_nonempty_batch (calm 250) 10
              (start (height 100)) 250 100) as (Hh & _ & Hr).
  split; [exact Hh | exact (Hr Hres)].
Defined.

(* ================================================================== *)
(** ** The exit code of the fatal failures *)
(* ================================================================== *)

Section Orderly64.

Variable env : Env.

Lemma log_loop64_orderly L off count fuel : forall i from to st,
  orderly st (log_loop64 env fuel L off count i from to st).
Proof.
  induction fuel as [|fuel IH]; intros i from to st; cbn [log_loop64];
    destruct (num_ltb (of_Z i) count).
  - unfold orderly, exited; cbn. repeat split; congruence.
  - unfold orderly, exited; cbn. repeat split; congruence.
  - apply orderly_bind; [apply sync_subrange_orderly|]. intros _ _.
    apply orderly_bind.
    { unfold orderly, exited; cbn. repeat split; congruence. }
    intros _ _. apply orderly_bind; [apply saveConf_orderly|].
    intros _ _. apply IH.
  - unfold orderly, exited; cbn. repeat split; congruence.
Qed.

Lemma log64_orderly fuel L s st : orderly st (log64 env fuel L s st).
Proof.
  unfold log64. apply orderly_bind.
  { unfold orderly, exited; cbn. repeat split; congruence. }
  intros cf _. apply orderly_bind; [apply log_loop64_orderly|].
  intros x _. unfold orderly, exited; cbn. repeat split; congruence.
Qed.

Lemma cycle64_fail_stop fuel st : fail_stop (cycle64 env fuel st).
Proof.
  unfold cycle64. apply fail_stop_bind.
  - unfold blockHeights. apply fail_stop_bind; [apply quiet_fail_stop|].
    intros cf _. destruct (isNaN _ _).
    + split; [reflexivity|discriminate].
    + apply fail_stop_bind; [split; [reflexivity|discriminate]|].
      intros [latest|] _; apply quiet_fail_stop.
  - intros [[latest|] v] _.
    + apply fail_stop_bind.
      { destruct (num_ltb _ _); [|apply quiet_fail_stop].
        apply fail_stop_bind; [apply quiet_fail_stop|].
        intros _ _. eapply orderly_fail_stop, saveConf_orderly. }
      intros _ _. apply fail_stop_bind.
      { destruct (num_ltb _ _); [|apply quiet_fail_stop].
        destruct (as_integer v).
        - eapply orderly_fail_stop, log64_orderly.
        - split; [reflexivity|discriminate]. }
      intros _ _. apply fail_stop_bind; [apply quiet_fail_stop|].
      intros cf _. apply timeOut_fail_stop.
    + apply fail_stop_bind; [split; [reflexivity|discriminate]|].
      intros _ _. apply fail_stop_bind; [apply quiet_fail_stop|].
      intros cf _. apply timeOut_fail_stop.
Qed.

(** A turn that starts with an integer checkpoint stays within the cases
    the model covers. *)
Lemma cycle_integer_checkpoint_steps fuel st s :
  syncedBlockHeight (conf st) = height s ->
  res (cycle env fuel st) <> Unmodelled.
Proof.
  intros Hs.
  destruct (eth_getBlockNumber env (clock st)) as [latest|] eqn:Ho.
  - pose proof (log_orderly env fuel latest s (tick st)) as Hord.
    destruct Hord as (_ & _ & _ & Hu & _). unfold tick in Hu.
    heights Hs Ho.
    destruct (Z.ltb_spec latest s); destruct (Z.ltb_spec s latest); try lia;
      cbv beta iota; cbn [conf disk web3 clock res final emitted app];
      try discriminate.
    + destruct (fs_writeFileSync env _ _); discriminate.
    + destruct (log env fuel latest s _) as [[[]|c|m| |] st1 tr1];
        cbn [res] in *; try discriminate. contradiction.
  - rewrite (cycle_outage env fuel st s Hs Ho). discriminate.
Qed.

Lemma cycle64_integer_checkpoint_steps fuel st s :
  syncedBlockHeight (conf st) = height s ->
  res (cycle64 env fuel st) <> Unmodelled.
Proof.
  intros Hs.
  destruct (eth_getBlockNumber env (clock st)) as [latest|] eqn:Ho.
  - pose proof (log64_orderly fuel latest s (tick st)) as Hord.
    destruct Hord as (_ & _ & _ & Hu & _). unfold tick in Hu.
    heights64 Hs Ho.
    destruct (Z.ltb_spec latest s); destruct (Z.ltb_spec s latest); try lia;
      cbv beta iota; cbn [conf disk web3 clock res final emitted app];
      try discriminate.
    + destruct (fs_writeFileSync env _ _); discriminate.
    + destruct (log64 env fuel latest s _) as [[[]|c|m| |] st1 tr1];
        cbn [res] in *; try discriminate. contradiction.
  - heights64 Hs Ho. discriminate.
Qed.

End Orderly64.

(** C3, as the code has it.  Whenever a fetch ([getPastEvents]), a
    hand-over ([logSync]) or a checkpoint write ([saveConf]) fails -- in a
    call of [log], in a call of [saveConf], or in a turn of the scheduler
    that starts with an integer checkpoint, with heights computed as
    JavaScript numbers ([log64], [cycle64]) or as integers ([log],
    [cycle]) -- the process is stopped with exit code 0.  Such a turn never
    ends in the case the model leaves out. *)
Theorem C3_fatal_failures_exit_with_zero env fuel st :
  (forall latest synced,
     existsb failed (emitted (log64 env fuel latest synced st)) = true ->
     res (log64 env fuel latest synced st) = Exit 0) /\
  (forall latest synced,
     existsb failed (emitted (log env fuel latest synced st)) = true ->
     res (log env fuel latest synced st) = Exit 0) /\
  (existsb failed (emitted (saveConf env st)) = true ->
   res (saveConf env st) = Exit 0) /\
  (forall s, syncedBlockHeight (conf st) = height s ->
     res (cycle64 env fuel st) <> Unmodelled /\
     (existsb failed (emitted (cycle64 env fuel st)) = true ->
      res (cycle64 env fuel st) = Exit 0)) /\
  (forall s, syncedBlockHeight (conf st) = height s ->
     res (cycle env fuel st) <> Unmodelled /\
     (existsb failed (emitted (cycle env fuel st)) = true ->
      res (cycle env fuel st) = Exit 0)).
Proof.
  assert (G : forall A (r : Run A), fail_stop r ->
            existsb failed (emitted r) = true -> res r = Exit 0).
  { intros A r (E & C) H. rewrite E in H. unfold exited in H.
    destruct (res r) as [a|code|m| |] eqn:Hr; try discriminate.
    now rewrite (C code eq_refl). }
  split; [|split; [|split; [|split]]].
  - intros latest synced. apply G.
    eapply orderly_fail_stop, log64_orderly.
  - intros latest synced. apply G.
    eapply orderly_fail_stop, log_orderly.
  - apply G. eapply orderly_fail_stop, saveConf_orderly.
  - intros s Hs.
    split; [now apply (cycle64_integer_checkpoint_steps env fuel st s)|].
    apply G, cycle64_fail_stop.
  - intros s Hs.
    split; [now apply (cycle_integer_checkpoint_steps env fuel st s)|].
    apply G, cycle_fail_stop.
Qed.

Lemma C3_scenario_C :
  existsb failed (emitted (log64 scenarioC 10 250 100 (start (height 100))))
  = true /\
  res (log64 scenarioC 10 250 100 (start (height 100))) = Exit 0.
Proof.
  assert (H : existsb failed
                (emitted (log64 scenarioC 10 250 100 (start (height 100))))
              = true) by reflexivity.
  split; [exact H|].
  destruct (C3_fatal_failures_exit_with_zero scenarioC 10 (start (height 100)))
    as (Hlog & _).
  exact (Hlog 250 100 H).
Defined.
